(** * Alternating least squares of [recommender_systems.ipynb]

    A shallow embedding of the notebook's [als] function (cell 45) and of the
    numpy operations it calls, with the properties of its specification.

    - Scalars are an abstract type with the arithmetic the code uses; the
      rationals instantiate it for running the model.
    - A numpy 2-D array is the list of its rows, a 1-D array a list of
      scalars.  Arrays with a zero dimension are outside the model: the shape
      of an empty list of rows does not record a column count.
    - Python exceptions are values of [exn]; a computation that can raise
      returns a [res].
    - ndarray objects live in a store and are reached through handles, so
      that views ([ratings.T]) and rebinding ([items = new_items]) share
      buffers as they do in numpy.  [print] appends to the store's output.
      The lists [new_users] and [new_items], local to [als] and appended to
      in place, are the accumulators of their loops.
    - The three inner loops only read arrays: each is a function of the
      entries its arrays hold when it starts.
    - [np.linalg.pinv] belongs to numpy: it is a parameter of the model, of
      which the statements ask at most the shape of its result.  The
      arithmetic is that of the scalar type: rounding is not modelled, and
      the special values of Python's floats are those of the kernel's
      binary64 floats, a second instance. *)

From Stdlib Require Import List Arith Lia Bool QArith.
From Stdlib Require PrimFloat.
Import ListNotations.
Close Scope Q_scope.
Open Scope nat_scope.

Set Implicit Arguments.

(** ** Scalars *)

(** The arithmetic of array entries: the literal [0], [+], [-], [*] and
    the test [x != 0]. *)
Class Scalar (F : Type) : Type := {
  s0 : F;
  sadd : F -> F -> F;
  ssub : F -> F -> F;
  smul : F -> F -> F;
  snz : F -> bool
}.

(** ** Exceptions *)

Inductive exn : Type :=
| IndexError          (* index out of bounds *)
| ValueError          (* shapes not aligned in [dot] *)
| UnboundLocalError   (* a local read before any assignment *)
| InvalidHandle.      (* a handle that names no array of the store; no Python
                         name can be in that state *)

Inductive res (A : Type) : Type :=
| Ok (a : A)
| Raise (e : exn).
Arguments Ok {A} a.
Arguments Raise {A} e.

Definition rbind {A B} (m : res A) (k : A -> res B) : res B :=
  match m with
  | Ok a => k a
  | Raise e => Raise e
  end.

Definition rmap {A B} (f : A -> B) (m : res A) : res B :=
  match m with
  | Ok a => Ok (f a)
  | Raise e => Raise e
  end.

Declare Scope res_scope.
Delimit Scope res_scope with res.
Notation "'let?' x ':=' m 'in' k" := (rbind m (fun x => k))
  (at level 10, x name, m at level 100, k at level 200) : res_scope.
Open Scope res_scope.

(** [for x in l: a = body(a, x)], stopping at the first exception. *)
Fixpoint for_in {A B} (l : list B) (body : A -> B -> res A) (a : A) : res A :=
  match l with
  | [] => Ok a
  | x :: l' => let? a' := body a x in for_in l' body a'
  end.

(** [range(n)] *)
Definition range (n : nat) : list nat := seq 0 n.

(** ** The numpy layer *)

(** A 1-D array of scalars, and a 2-D array as the list of its rows. *)
Abbreviation vec F := (list F) (only parsing).
Abbreviation mat F := (list (list F)) (only parsing).

Section Numpy.
Context {F : Type} {SF : Scalar F}.

(** [shape M n c]: [M] is an n-by-c array. *)
Definition shape (M : mat F) (n c : nat) : Prop :=
  length M = n /\ Forall (fun row => length row = c) M.

Definition ncols (M : mat F) : nat :=
  match M with
  | [] => 0
  | row :: _ => length row
  end.

(** [a[i]] on a 2-D array: row [i]. *)
Definition getitem (M : mat F) (i : nat) : res (vec F) :=
  match nth_error M i with
  | Some row => Ok row
  | None => Raise IndexError
  end.

(** [a[i, j]] *)
Definition getitem2 (M : mat F) (i j : nat) : res F :=
  let? row := getitem M i in
  match nth_error row j with
  | Some x => Ok x
  | None => Raise IndexError
  end.

(** [a.T] *)
Definition transpose (M : mat F) : mat F :=
  map (fun j => map (fun row => nth j row s0) M) (range (ncols M)).

(** Sum of the entrywise products of two 1-D arrays. *)
Definition dotp (a b : vec F) : F :=
  fold_left (fun acc p => sadd acc (smul (fst p) (snd p))) (combine a b) s0.

(** [A.dot(v)], [A] 2-D and [v] 1-D: the columns of [A] must be as many as
    the entries of [v]. *)
Definition dot_mv (A : mat F) (v : vec F) : res (vec F) :=
  if forallb (fun a => length a =? length v) A
  then Ok (map (fun a => dotp a v) A)
  else Raise ValueError.

(** [A.dot(B)], both 2-D: the columns of [A] must be as many as the rows of
    [B]. *)
Definition dot_mm (A B : mat F) : res (mat F) :=
  if forallb (fun a => length a =? length B) A
  then Ok (map (fun a => map (fun b => dotp a b) (transpose B)) A)
  else Raise ValueError.

(** [x ** 2] *)
Definition sq (x : F) : F := smul x x.

(** *** The three loops of one iteration *)

(** [np.linalg.pinv] is a function of numpy, not of the notebook: it is a
    parameter of the model. *)
Variable pinv : mat F -> mat F.

(**
<<
      new_users = []
      for i in range(len(ratings)):
          user = np.linalg.pinv(items).dot(ratings[i])
          new_users.append(user)
>> *)
Definition user_sweep (ratings items : mat F) : res (list (vec F)) :=
  for_in (range (length ratings))
    (fun new_users i =>
       let pinv_items := pinv items in
       let? row := getitem ratings i in
       let? user := dot_mv pinv_items row in
       Ok (new_users ++ [user]))
    [].

(**
<<
      new_items = []
      for i in range(len(ratings)):
          item = np.linalg.pinv(new_users).dot(ratings_cols[i])
          new_items.append(item)
>> *)
Definition item_sweep (ratings ratings_cols new_users : mat F)
  : res (list (vec F)) :=
  for_in (range (length ratings))
    (fun new_items i =>
       let pinv_users := pinv new_users in
       let? col := getitem ratings_cols i in
       let? item := dot_mv pinv_users col in
       Ok (new_items ++ [item]))
    [].

(**
<<
      err = 0
      for i in range(len(ratings)):
          for j in range(len(ratings[i])):
              if ratings[i, j] != 0:
                  err += (ratings[i, j] - guess[i, j])**2
>> *)
Definition masked_error_row (ratings guess : mat F) (i : nat) (err : F)
  : res F :=
  let? row := getitem ratings i in
  for_in (range (length row))
    (fun err j =>
       let? x := getitem2 ratings i j in
       if snz x then
         let? x := getitem2 ratings i j in
         let? g := getitem2 guess i j in
         Ok (sadd err (sq (ssub x g)))
       else Ok err)
    err.

Definition masked_error (ratings guess : mat F) : res F :=
  for_in (range (length ratings))
    (fun err i => masked_error_row ratings guess i err)
    s0.

End Numpy.

(** ** The store and the function [als] *)

Section Store.
Context {F : Type} {SF : Scalar F}.
Variable pinv : mat F -> mat F.

(** The ndarray buffers allocated so far, and what [print] has written. *)
Record store : Type := mkStore {
  heap : list (mat F);
  stdout : list F
}.

(** An ndarray object: a buffer of the store, read as it is ([Arr]) or
    through the transposed view ([ArrT]). *)
Inductive ndarray : Type :=
| Arr (l : nat)
| ArrT (l : nat).

(** [a.T]: a view on the same buffer. *)
Definition T (a : ndarray) : ndarray :=
  match a with
  | Arr l => ArrT l
  | ArrT l => Arr l
  end.

(** The entries seen through a handle. *)
Definition contents (s : store) (a : ndarray) : option (mat F) :=
  match a with
  | Arr l => nth_error (heap s) l
  | ArrT l => option_map transpose (nth_error (heap s) l)
  end.

(** Computations: they read and extend the store, and return or raise.
    [als] assigns to no element of an array, so no operation below writes
    into a buffer: the store grows by the arrays a call creates and by what
    it prints. *)
Definition M (A : Type) : Type := store -> res A * store.

Definition ret {A} (a : A) : M A := fun s => (Ok a, s).

Definition raise {A} (e : exn) : M A := fun s => (Raise e, s).

Definition bind {A B} (m : M A) (k : A -> M B) : M B :=
  fun s =>
    match m s with
    | (Ok a, s') => k a s'
    | (Raise e, s') => (Raise e, s')
    end.

Definition lift {A} (r : res A) : M A := fun s => (r, s).

Notation "x <- m ;; k" := (bind m (fun x => k))
  (at level 61, m at next level, right associativity).
Notation "m ;;; k" := (bind m (fun _ => k))
  (at level 61, right associativity).

Fixpoint for_M {A B} (l : list B) (body : A -> B -> M A) (a : A) : M A :=
  match l with
  | [] => ret a
  | x :: l' => a' <- body a x ;; for_M l' body a'
  end.

Definition deref (a : ndarray) : M (mat F) :=
  fun s =>
    match contents s a with
    | Some A => (Ok A, s)
    | None => (Raise InvalidHandle, s)
    end.

(** A new ndarray with the given entries. *)
Definition new_array (A : mat F) : M ndarray :=
  fun s => (Ok (Arr (length (heap s))),
            mkStore (heap s ++ [A]) (stdout s)).

(** [np.asarray(rows)] on a list of 1-D arrays of one length. *)
Definition asarray (rows : list (vec F)) : M ndarray := new_array rows.

(** [a.dot(b)] on 2-D arrays. *)
Definition dot (a b : ndarray) : M ndarray :=
  A <- deref a ;;
  B <- deref b ;;
  C <- lift (dot_mm A B) ;;
  new_array C.

Definition print (x : F) : M unit :=
  fun s => (Ok tt, mkStore (heap s) (stdout s ++ [x])).

(** The locals of [als] that one pass of its loop hands to the next.
    [new_users] and [new_items] are unbound before the first pass. *)
Record locals : Type := mkLocals {
  v_items : ndarray;
  v_new_users : option ndarray;
  v_new_items : option ndarray
}.

(** The body of [for _ in range(reps)]. *)
Definition iteration (ratings ratings_cols : ndarray) (lv : locals)
  : M locals :=
  R <- deref ratings ;;
  Q <- deref (v_items lv) ;;
  new_users <- lift (user_sweep pinv R Q) ;;
  new_users <- asarray new_users ;;
  R <- deref ratings ;;
  Rt <- deref ratings_cols ;;
  P <- deref new_users ;;
  new_items <- lift (item_sweep pinv R Rt P) ;;
  new_items <- asarray new_items ;;
  guess <- dot new_users (T new_items) ;;
  R <- deref ratings ;;
  G <- deref guess ;;
  err <- lift (masked_error R G) ;;
  print err ;;;
  ret (mkLocals new_items (Some new_users) (Some new_items)).

(** [def als(ratings, users, items, reps=10)] *)
Definition als (ratings users items : ndarray) (reps : nat) : M ndarray :=
  let ratings_cols := T ratings in
  lv <- for_M (range reps)
          (fun lv _ => iteration ratings ratings_cols lv)
          (mkLocals items None None) ;;
  match v_new_users lv, v_new_items lv with
  | Some new_users, Some new_items => dot new_users (T new_items)
  | _, _ => raise UnboundLocalError
  end.

(** What a caller observes of a call: the entries of the returned array,
    or the exception. *)
Definition als_result (ratings users items : ndarray) (reps : nat)
  : M (mat F) :=
  a <- als ratings users items reps ;;
  deref a.

End Store.

(** ** The function that [als] computes

    One iteration and the whole call, read as functions of the entries of
    [ratings] and [items]: what is printed, and the result or exception. *)

Section Reference.
Context {F : Type} {SF : Scalar F}.
Variable pinv : mat F -> mat F.

Definition step_fun (R Q : mat F) : res (mat F * mat F * F) :=
  let? P' := user_sweep pinv R Q in
  let? Q' := item_sweep pinv R (transpose R) P' in
  let? G := dot_mm P' (transpose Q') in
  let? err := masked_error R G in
  Ok (P', Q', err).

(** The arrays one iteration allocates before it ends or raises, and what
    it prints. *)
Definition step_allocs (R Q : mat F) : list (mat F) :=
  match user_sweep pinv R Q with
  | Raise _ => []
  | Ok P' =>
      match item_sweep pinv R (transpose R) P' with
      | Raise _ => [P']
      | Ok Q' =>
          match dot_mm P' (transpose Q') with
          | Raise _ => [P'; Q']
          | Ok G => [P'; Q'; G]
          end
      end
  end.

Definition step_out (R Q : mat F) : list F :=
  match step_fun R Q with
  | Ok (_, _, err) => [err]
  | Raise _ => []
  end.

Fixpoint als_trace (R Q : mat F) (last : option (mat F * mat F))
    (reps : nat) : list F * res (option (mat F * mat F)) :=
  match reps with
  | 0 => ([], Ok last)
  | S n =>
      match step_fun R Q with
      | Ok (P', Q', err) =>
          let (out, r) := als_trace R Q' (Some (P', Q')) n in
          (err :: out, r)
      | Raise e => ([], Raise e)
      end
  end.

Definition als_fun (R Q : mat F) (reps : nat) : list F * res (mat F) :=
  let (out, r) := als_trace R Q None reps in
  (out,
   let? last := r in
   match last with
   | Some (P, Qn) => dot_mm P (transpose Qn)
   | None => Raise UnboundLocalError
   end).

(** [s'] has the arrays and the output of [s], and possibly more. *)
Definition extends (s s' : @store F) : Prop :=
  exists h' o', heap s' = heap s ++ h' /\ stdout s' = stdout s ++ o'.

(** [m] leaves every array of the store as it is. *)
Definition grows {A : Type} (m : @M F A) : Prop :=
  forall s, extends s (snd (m s)).

(** What was printed between [s] and [s']. *)
Definition printed (s s' : @store F) : list F :=
  skipn (length (stdout s)) (stdout s').

(** The locals [lv] hold, in [s], the item factors [Q] and the factors
    [last] of the latest pass, if any. *)
Definition locals_hold (s : @store F) (lv : locals) (Q : mat F)
    (last : option (mat F * mat F)) : Prop :=
  contents s (v_items lv) = Some Q /\
  match last with
  | Some (P, Qn) =>
      exists lp lq,
        v_new_users lv = Some (Arr lp) /\ v_new_items lv = Some (Arr lq) /\
        nth_error (heap s) lp = Some P /\ nth_error (heap s) lq = Some Qn
  | None => v_new_users lv = None /\ v_new_items lv = None
  end.

End Reference.

(** ** Rational scalars and a rational pseudo-inverse *)

Module Rational.

Definition qadd (x y : Q) : Q := Qred (Qplus x y).
Definition qsub (x y : Q) : Q := Qred (Qminus x y).
Definition qmul (x y : Q) : Q := Qred (Qmult x y).
Definition qdiv (x y : Q) : Q := Qred (Qdiv x y).
Definition qnz (x : Q) : bool := negb (Qeq_bool x 0%Q).

#[export] Instance Scalar_Q : Scalar Q :=
  {| s0 := 0%Q; sadd := qadd; ssub := qsub; smul := qmul; snz := qnz |}.

Definition qmat : Type := mat Q.

(** The first row with a nonzero entry in column [j], and the other rows. *)
Fixpoint pick (j : nat) (rows : qmat) : option (list Q * qmat) :=
  match rows with
  | [] => None
  | r :: rs =>
      if qnz (nth j r 0%Q) then Some (r, rs)
      else match pick j rs with
           | Some (p, others) => Some (p, r :: others)
           | None => None
           end
  end.

(** [r - r[j] * p] *)
Definition elim (j : nat) (p r : list Q) : list Q :=
  let c := nth j r 0%Q in
  map (fun xy => qsub (snd xy) (qmul c (fst xy))) (combine p r).

(** Gauss-Jordan elimination over the columns [cols]: [done] are the
    normalised pivot rows found so far, [rest] the rows without a pivot. *)
Fixpoint gauss_jordan (cols : list nat) (done rest : qmat)
    (pivots : list nat) : qmat * list nat :=
  match cols with
  | [] => (done, pivots)
  | j :: cols' =>
      match pick j rest with
      | None => gauss_jordan cols' done rest pivots
      | Some (p, others) =>
          let p' := map (fun x => qdiv x (nth j p 0%Q)) p in
          gauss_jordan cols' (map (elim j p') done ++ [p'])
            (map (elim j p') others) (pivots ++ [j])
      end
  end.

Definition mmul (A B : qmat) : qmat :=
  map (fun a => map (fun b => dotp a b) (transpose B)) A.

Definition identity (n : nat) : qmat :=
  map (fun i => map (fun j => if i =? j then 1%Q else 0%Q) (range n))
    (range n).

(** Inverse of an invertible n-by-n matrix, from [[A | I]]. *)
Definition inverse (A : qmat) : qmat :=
  let n := length A in
  let aug := map (fun ab => fst ab ++ snd ab) (combine A (identity n)) in
  map (skipn n) (fst (gauss_jordan (range n) [] aug [])).

(** Modelled from the spec: numpy's [np.linalg.pinv], which is not part of
    the notebook, as the Moore-Penrose pseudo-inverse in exact rational
    arithmetic.  With the rank factorisation [A = C F] ([F] the nonzero rows
    of the reduced echelon form, [C] the pivot columns of [A]) it is
    [F^T (F F^T)^-1 (C^T C)^-1 C^T]. *)
Definition pinv_core (A : qmat) : qmat :=
  let (Fm, pivots) := gauss_jordan (range (ncols A)) [] A [] in
  match pivots with
  | [] => []
  | _ =>
      let C := map (fun row => map (fun j => nth j row 0%Q) pivots) A in
      let Ft := transpose Fm in
      let Ct := transpose C in
      mmul Ft (mmul (inverse (mmul Fm Ft)) (mmul (inverse (mmul Ct C)) Ct))
  end.

Definition pinv (A : qmat) : qmat :=
  let core := pinv_core A in
  map (fun i => map (fun j => nth j (nth i core []) 0%Q) (range (length A)))
    (range (ncols A)).

End Rational.

(** ** Notions used by the statements *)

Section Notions.
Context {F : Type} {SF : Scalar F}.

(** The product of a 2-D array with a 1-D array of the right length. *)
Definition matvec (A : mat F) (v : vec F) : vec F :=
  map (fun a => dotp a v) A.


(** What the model asks of [np.linalg.pinv]: the pseudo-inverse of an
    n-by-k array is k-by-n. *)
Definition pinv_shaped (pinv : mat F -> mat F) : Prop :=
  forall A n k, shape A n k -> 0 < n -> shape (pinv A) k n.

(** The index pairs of the observed (nonzero) ratings, row by row. *)
Definition observed (R : mat F) : list (nat * nat) :=
  flat_map
    (fun i => map (pair i)
                (filter (fun j => snz (nth j (nth i R []) s0))
                   (range (length (nth i R [])))))
    (range (length R)).

(** The sum of [(R[i,j] - G[i,j])**2] over the observed pairs; it is
    undefined ([IndexError]) when [G] lacks one of them. *)
Definition masked_sum (R G : mat F) : res F :=
  for_in (observed R)
    (fun err ij =>
       let? g := getitem2 G (fst ij) (snd ij) in
       Ok (sadd err (sq (ssub (nth (snd ij) (nth (fst ij) R []) s0) g))))
    s0.

(** The same sum when [G] has all those entries. *)
Definition masked_total (R G : mat F) : F :=
  fold_left
    (fun err ij =>
       sadd err (sq (ssub (nth (snd ij) (nth (fst ij) R []) s0)
                          (nth (snd ij) (nth (fst ij) G []) s0))))
    (observed R) s0.

(** [a.shape] of a 2-D array with at least one row. *)
Definition dims (A : mat F) : nat * nat := (length A, ncols A).

(** A row of sentinels. *)
Definition all_zero (row : vec F) : Prop := Forall (fun x => x = s0) row.

End Notions.

(** ** Inputs for running the model *)

Module Scenario.
Import Rational.
Open Scope Q_scope.

(** The two-user, five-item ratings of the specification's scenario. *)
Definition ratings_2x5 : qmat := [[0; 1; 0; 0; 4]; [0; 0; 0; 5; 0]].

(** Factors with ten latent features for it. *)
Definition users_2x10 : qmat :=
  [[0; 1; 2; 0; 1; 2; 0; 1; 2; 0]; [1; 2; 0; 1; 2; 0; 1; 2; 0; 1]].

Definition items_5x10 : qmat :=
  [[-3; -1;  1;  3; -2;  0; 2; -3; -1;  1];
   [-2;  1; -3;  0;  3; -1; 2; -2;  1; -3];
   [-1;  3;  0; -3;  1; -2; 2; -1;  3;  0];
   [ 0; -2;  3;  1; -1; -3; 2;  0; -2;  3];
   [ 1;  0; -1; -2; -3;  3; 2;  1;  0; -1]].

(** The store of a caller that holds these three arrays. *)
Definition store_2x5 : @store Q :=
  mkStore [ratings_2x5; users_2x10; items_5x10] [].

(** User factors of another shape. *)
Definition users_1x1 : qmat := [[1]].

(** Two users and three items, the third one unrated. *)
Definition ratings_2x3 : qmat := [[2; 0; 0]; [0; 3; 0]].
Definition users_2x1 : qmat := [[1]; [2]].
Definition items_3x1 : qmat := [[1]; [1]; [1]].
Definition store_2x3 : @store Q :=
  mkStore [ratings_2x3; users_2x1; items_3x1] [].

(** Two reconstructions for it that agree at the observed pairs (0, 0) and
    (1, 1). *)
Definition guess_2x3 : qmat := [[1; 5; 7]; [9; 2; 4]].
Definition guess_2x3' : qmat := [[1; 0; 0]; [0; 2; 0]].

(** Two users and two items, the second user without ratings. *)
Definition ratings_2x2 : qmat := [[3; 1]; [0; 0]].
Definition items_2x1' : qmat := [[1]; [2]].
Definition store_2x2 : @store Q :=
  mkStore [ratings_2x2; users_2x1; items_2x1'] [].

(** An array of rank one. *)
Definition rank_one_2x3 : qmat := [[1; 2; 3]; [2; 4; 6]].

(** The same arrays at other places of another store. *)
Definition store_2x2' : @store Q :=
  mkStore [items_2x1'; users_1x1; users_2x1; ratings_2x2] [7].

End Scenario.

(** ** Further notions *)

Section MoreNotions.
Context {F : Type} {SF : Scalar F}.

(** [np.zeros((n, c))] *)
Definition zeros (n c : nat) : mat F := repeat (repeat s0 c) n.

End MoreNotions.

(** ** More inputs for running the model *)

Module MoreScenarios.
Import Rational.
Open Scope Q_scope.

(** Three users and two items. *)
Definition ratings_3x2 : qmat := [[3; 0]; [1; 2]; [0; 5]].
Definition items_2x1 : qmat := [[1]; [2]].
Definition store_3x2 : @store Q := mkStore [ratings_3x2; items_2x1] [].

(** The sum of [f] over a list, in the rationals. *)
Definition qsum {A : Type} (f : A -> Q) (l : list A) : Q :=
  fold_right (fun x acc => f x + acc) 0 l.

(** Two users and two items, nothing observed. *)
Definition store_zeros : @store Q := mkStore [zeros 2 2; items_2x1] [].

(** Two users and two items, every rating observed, and a reconstruction. *)
Definition ratings_full_2x2 : qmat := [[3; 1]; [2; 4]].
Definition guess_full_2x2 : qmat := [[1; 1]; [2; 5]].

End MoreScenarios.

(** ** The cells around [als]

    The notebook's cells that build a first reconstruction and its error
    (cells 41 to 44) and the two-user example (cells 31 to 35), as functions
    of the arrays they read. *)

Section OtherCells.
Context {F : Type} {SF : Scalar F}.
Variable pinv : mat F -> mat F.

(** The length of an axis of [a - b], by numpy's broadcasting: equal
    lengths, or one of them 1. *)
Definition broadcast_dim (a c : nat) : option nat :=
  if a =? c then Some a
  else if a =? 1 then Some c
  else if c =? 1 then Some a
  else None.

(** Entry (i, j) of [M] stretched along its axes of length 1. *)
Definition bread (M : mat F) (i j : nat) : F :=
  nth (if ncols M =? 1 then 0 else j)
    (nth (if length M =? 1 then 0 else i) M []) s0.

(** [A - B] on 2-D arrays. *)
Definition subtract (A B : mat F) : res (mat F) :=
  match broadcast_dim (length A) (length B),
        broadcast_dim (ncols A) (ncols B) with
  | Some n, Some c =>
      Ok (map (fun i => map (fun j => ssub (bread A i j) (bread B i j))
                          (range c))
            (range n))
  | _, _ => Raise ValueError
  end.

(** [np.sum(A)], row by row. *)
Definition np_sum (A : mat F) : F :=
  fold_left (fun acc row => fold_left sadd row acc) A s0.

(** [a.shape == b.shape] *)
Definition shape_eq (A B : mat F) : bool :=
  (length A =? length B) && (ncols A =? ncols B).

(**
<<
  guess = users_arr2.dot(items_arr2.T)
  guess.shape == ratings_arr2.shape
  err = (ratings_arr2 - guess)**2
  np.sum(err)
>> *)
Definition first_guess (ratings users items : mat F)
  : res (mat F * bool * F) :=
  let? guess := dot_mm users (transpose items) in
  let same_shape := shape_eq guess ratings in
  let? diff := subtract ratings guess in
  let err := map (map sq) diff in
  Ok (guess, same_shape, np_sum err).

(** [v.dot(B)], [v] 1-D and [B] 2-D: the entries of [v] must be as many as
    the rows of [B]. *)
Definition dot_vm (v : vec F) (B : mat F) : res (vec F) :=
  if length v =? length B
  then Ok (map (fun b => dotp v b) (transpose B))
  else Raise ValueError.

(** [np.vstack(rows)] on 1-D arrays: they must have one length. *)
Definition vstack (rows : list (vec F)) : res (mat F) :=
  if forallb (fun row => length row =? ncols rows) rows
  then Ok rows
  else Raise ValueError.

(** Cells 31 to 35, on the frame whose rows are [brian] and [erin]:
<<
  brian_pref = np.linalg.pinv(items_arr).dot(ratings_arr.loc['brian', :])
  erin_pref = np.linalg.pinv(items_arr).dot(ratings_arr.loc['erin', :])
  newbrian = brian_pref.dot(items_arr.T)
  newerin = erin_pref.dot(items_arr.T)
  guess = np.vstack([newbrian, newerin])
  err = 0
  for i in range(2):
      for j in range(len(ratings_arr.values[i, :])):
          if ratings_arr.values[i, j] != 0:
              err += (ratings_arr.values[i, j] - guess[i, j])**2
>>
    It gives the two preference rows, the reconstruction and the error. *)
Definition two_user_example (brian erin : vec F) (items_arr : mat F)
  : res (mat F * mat F * F) :=
  let values := [brian; erin] in
  let? brian_pref := dot_mv (pinv items_arr) brian in
  let? erin_pref := dot_mv (pinv items_arr) erin in
  let? newbrian := dot_vm brian_pref (transpose items_arr) in
  let? newerin := dot_vm erin_pref (transpose items_arr) in
  let? guess := vstack [newbrian; newerin] in
  let? err :=
    for_in (range 2) (fun err i => masked_error_row values guess i err) s0 in
  Ok ([brian_pref; erin_pref], guess, err).

(** All index pairs of an n-by-c array, row by row. *)
Definition all_pairs (n c : nat) : list (nat * nat) :=
  flat_map (fun i => map (pair i) (range c)) (range n).

(** The sum of [(R[i,j] - G[i,j])**2] over all pairs. *)
Definition total_sq (n c : nat) (R G : mat F) : F :=
  fold_left
    (fun err ij =>
       sadd err (sq (ssub (nth (snd ij) (nth (fst ij) R []) s0)
                          (nth (snd ij) (nth (fst ij) G []) s0))))
    (all_pairs n c) s0.

(** The sum of [G[i,j]**2] over the pairs of an n-by-c array at which the
    rating is zero. *)
Definition unobserved_sq (n c : nat) (R G : mat F) : F :=
  fold_left
    (fun err ij => sadd err (sq (nth (snd ij) (nth (fst ij) G []) s0)))
    (filter (fun ij => negb (snz (nth (snd ij) (nth (fst ij) R []) s0)))
       (all_pairs n c))
    s0.

(** The reconstruction [P.dot(Q.T)]: entry (i, j) is the product of row i
    of [P] and row j of [Q]. *)
Definition products (P Q : mat F) : mat F :=
  map (fun p => map (fun q => dotp p q) Q) P.

End OtherCells.

(** ** The cells that draw the arrays

    Cells 26, 27 and 38 to 40 fill lists from Python's global random
    generator, and cell 46 calls [als] on the arrays of cells 38 to 40.  The
    generator belongs to the [random] module: its state, [seed], [gauss] and
    [uniform] are parameters.  The floats it returns are rationals; the
    cells compare them and truncate them, and do no arithmetic on them. *)

Module Cells.
Import Rational.

Section Random.
Variable rng : Type.
Variable seed : Z -> rng.
Variable gauss : Q -> Q -> rng -> Q * rng.
Variable uniform : Q -> Q -> rng -> Q * rng.

(**
<<
      for _ in range(10):
          user.append(gs(0, 1))
>> *)
Fixpoint gauss_row (k : nat) (row : list Q) (g : rng) : list Q * rng :=
  match k with
  | 0 => (row, g)
  | S k' =>
      let (x, g') := gauss 0 1 g in
      gauss_row k' (row ++ [x]) g'
  end.

(**
<<
  for _ in range(2):
      user = []
      for _ in range(10):
          user.append(gs(0, 1))
      users.append(user)
>> *)
Fixpoint gauss_rows (n k : nat) (rows : list (list Q)) (g : rng)
  : list (list Q) * rng :=
  match n with
  | 0 => (rows, g)
  | S n' =>
      let (row, g') := gauss_row k [] g in
      gauss_rows n' k (rows ++ [row]) g'
  end.

(** Cell 26: [seed(100)], then [users_arr], two rows of ten draws. *)
Definition cell_26 : qmat * rng := gauss_rows 2 10 [] (seed 100).

(** Cell 27: [seed(100)], then [items_arr], five rows of ten draws. *)
Definition cell_27 : qmat * rng := gauss_rows 5 10 [] (seed 100).

(** [int(x)] of a float: truncation towards zero. *)
Definition int_of (x : Q) : Z := Z.quot (Qnum x) (Zpos (Qden x)).

(** [l[i] = v] on a list: a negative index counts from the end. *)
Definition list_setitem (l : list Z) (i v : Z) : res (list Z) :=
  let n := Z.of_nat (length l) in
  let i' := if (i <? 0)%Z then (i + n)%Z else i in
  if ((0 <=? i') && (i' <? n))%Z
  then Ok (firstn (Z.to_nat i') l ++ v :: skipn (S (Z.to_nat i')) l)
  else Raise IndexError.

(** One pass of the inner loop of cell 38:
<<
          chance = gs(0, 0.4)
          if chance > 0.5:
              user.append(int(uni(1, 6)))
          else:
              user.append(0)
          if user.count(0) == 10:
              user[int(uni(0, 10))] = int(uni(1, 6))
>>
    In the last line Python evaluates the right-hand side first. *)
Definition rate (user : list Z) (g : rng) : res (list Z) * rng :=
  let (chance, g) := gauss 0 (4 # 10) g in
  let (user, g) :=
    if negb (Qle_bool chance (1 # 2))
    then let (x, g) := uniform 1 6 g in (user ++ [int_of x], g)
    else (user ++ [0%Z], g) in
  if count_occ Z.eq_dec user 0%Z =? 10
  then let (v, g) := uniform 1 6 g in
       let (u, g) := uniform 0 10 g in
       (list_setitem user (int_of u) (int_of v), g)
  else (Ok user, g).

Fixpoint rate_row (k : nat) (user : list Z) (g : rng)
  : res (list Z) * rng :=
  match k with
  | 0 => (Ok user, g)
  | S k' =>
      match rate user g with
      | (Ok user', g') => rate_row k' user' g'
      | (Raise e, g') => (Raise e, g')
      end
  end.

Fixpoint rate_rows (n k : nat) (rows : list (list Z)) (g : rng)
  : res (list (list Z)) * rng :=
  match n with
  | 0 => (Ok rows, g)
  | S n' =>
      match rate_row k [] g with
      | (Ok user, g') => rate_rows n' k (rows ++ [user]) g'
      | (Raise e, g') => (Raise e, g')
      end
  end.

(** Cell 38: [seed(42)], then [ratings2], a hundred rows of a hundred
    ratings. *)
Definition cell_38 : res (list (list Z)) * rng :=
  rate_rows 100 100 [] (seed 42).

(** [np.array] of a list of lists of integers, as an array of scalars. *)
Definition int_array (rows : list (list Z)) : qmat :=
  map (map inject_Z) rows.

(** Cells 38 to 46 in order: the ratings, the initial factors (cells 39
    and 40 draw on from where cell 38 stopped), and
    [als(ratings_arr2, users_arr2, items_arr2)[:5, :]] with what it
    prints. *)
Definition cells_38_to_46 (pinv : qmat -> qmat) : res qmat * list Q :=
  match cell_38 with
  | (Raise e, _) => (Raise e, [])
  | (Ok ratings2, g) =>
      let ratings_arr2 := int_array ratings2 in
      let (users_arr2, g) := gauss_rows 100 10 [] g in
      let (items_arr2, g) := gauss_rows 100 10 [] g in
      let s := mkStore [ratings_arr2; users_arr2; items_arr2] [] in
      let (result, s') := als_result pinv (Arr 0) (Arr 1) (Arr 2) 10 s in
      (rmap (firstn 5) result, stdout s')
  end.

End Random.

(** A generator for running the cells: a linear congruence. *)
Definition lcg_next (g : Z) : Z := ((g * 1103515245 + 12345) mod 2147483648)%Z.

Definition lcg_gauss (mu sigma : Q) (g : Z) : Q * Z :=
  let g' := lcg_next g in
  ((mu + sigma * ((g' mod 2001 - 1000) # 500))%Q, g').

Definition lcg_uniform (a b : Q) (g : Z) : Q * Z :=
  let g' := lcg_next g in
  ((a + (b - a) * ((g' mod 1000) # 1000))%Q, g').

Definition lcg_seed (n : Z) : Z := n.

(** The ratings that cell 38 builds from it. *)
Definition lcg_ratings2 : list (list Z) :=
  match fst (cell_38 lcg_seed lcg_gauss lcg_uniform) with
  | Ok rows => rows
  | Raise _ => []
  end.

End Cells.

(** ** Floating-point scalars

    Python's floats are IEEE 754 binary64 numbers, as the kernel's primitive
    floats are, with their infinities and NaN. *)

Module Floating.
Import PrimFloat.




End Floating.

(** * Properties *)

(** ** Loops *)

Section Loops.
Context {A B : Type}.

Lemma for_in_ext (l : list B) (f g : A -> B -> res A) (a : A) :
  (forall a' x, In x l -> f a' x = g a' x) ->
  for_in l f a = for_in l g a.
Proof.
  revert a; induction l as [|x l IH]; intros a Hfg; simpl; [reflexivity|].
  rewrite (Hfg a x (or_introl eq_refl)).
  destruct (g a x) as [a'|e]; simpl; [|reflexivity].
  apply IH; intros; apply Hfg; now right.
Qed.

Lemma for_in_app (l1 l2 : list B) (f : A -> B -> res A) (a : A) :
  for_in (l1 ++ l2) f a = let? a' := for_in l1 f a in for_in l2 f a'.
Proof.
  revert a; induction l1 as [|x l1 IH]; intros a; simpl; [reflexivity|].
  destruct (f a x) as [a'|e]; simpl; [apply IH | reflexivity].
Qed.

(** A loop whose passes raise nothing but [e], and one of whose passes
    raises whatever it is handed, raises [e]. *)
Lemma for_in_raises (l : list B) (f : A -> B -> res A) (e : exn) (a : A) :
  (forall a' x, In x l -> forall e', f a' x = Raise e' -> e' = e) ->
  (exists x, In x l /\ forall a', f a' x = Raise e) ->
  for_in l f a = Raise e.
Proof.
  revert a; induction l as [|x l IH]; intros a Hall [y [Hy Hr]].
  - destruct Hy.
  - simpl. destruct (f a x) as [a'|e'] eqn:E; simpl.
    + destruct Hy as [->|Hy]; [rewrite Hr in E; discriminate|].
      apply IH; [intros; eapply Hall; eauto; now right | eauto].
    + f_equal. eapply Hall; [now left | exact E].
Qed.

Lemma for_in_flat_map {C : Type} (h : C -> list B) (l : list C)
    (f : A -> B -> res A) (a : A) :
  for_in (flat_map h l) f a = for_in l (fun a x => for_in (h x) f a) a.
Proof.
  revert a; induction l as [|x l IH]; intros a; simpl; [reflexivity|].
  rewrite for_in_app. destruct (for_in (h x) f a); simpl; auto.
Qed.

Lemma for_in_map {C : Type} (g : C -> B) (l : list C)
    (f : A -> B -> res A) (a : A) :
  for_in (map g l) f a = for_in l (fun a x => f a (g x)) a.
Proof.
  revert a; induction l as [|x l IH]; intros a; simpl; [reflexivity|].
  destruct (f a (g x)); simpl; auto.
Qed.

Lemma for_in_filter (p : B -> bool) (l : list B) (f : A -> B -> res A)
    (a : A) :
  for_in (filter p l) f a
  = for_in l (fun a x => if p x then f a x else Ok a) a.
Proof.
  revert a; induction l as [|x l IH]; intros a; simpl; [reflexivity|].
  destruct (p x); simpl; [destruct (f a x); simpl|]; auto.
Qed.

Lemma for_in_total (l : list B) (f : A -> B -> res A) (g : A -> B -> A)
    (a : A) :
  (forall a' x, In x l -> f a' x = Ok (g a' x)) ->
  for_in l f a = Ok (fold_left g l a).
Proof.
  revert a; induction l as [|x l IH]; intros a Hf; simpl; [reflexivity|].
  rewrite (Hf a x (or_introl eq_refl)). simpl.
  apply IH. intros; apply Hf; now right.
Qed.

End Loops.

(** A loop that appends one solved row per pass. *)
Lemma for_in_collect {B C : Type} (l : list B) (f : B -> res C) (g : B -> C)
    (acc : list C) :
  (forall x, In x l -> f x = Ok (g x)) ->
  for_in l (fun acc x => let? y := f x in Ok (acc ++ [y])) acc
  = Ok (acc ++ map g l).
Proof.
  revert acc; induction l as [|x l IH]; intros acc Hf; simpl.
  - now rewrite app_nil_r.
  - rewrite (Hf x (or_introl eq_refl)); simpl.
    rewrite IH by (intros; apply Hf; now right).
    now rewrite <- app_assoc.
Qed.

Lemma for_in_collect_raises {B C : Type} (l1 l2 : list B) (x : B)
    (f : B -> res C) (g : B -> C) (e : exn) (acc : list C) :
  (forall y, In y l1 -> f y = Ok (g y)) ->
  f x = Raise e ->
  for_in (l1 ++ x :: l2) (fun acc x => let? y := f x in Ok (acc ++ [y])) acc
  = Raise e.
Proof.
  intros Hok Hx. rewrite for_in_app, for_in_collect with (g := g)
    by exact Hok.
  simpl. now rewrite Hx.
Qed.

(** ** Arrays *)

Section ArrayFacts.
Context {F : Type} {SF : Scalar F}.
Implicit Types (M A : mat F) (v row : vec F).

Lemma shape_length M n c : shape M n c -> length M = n.
Proof. now intros [H _]. Qed.

Lemma shape_row M n c i row :
  shape M n c -> nth_error M i = Some row -> length row = c.
Proof.
  intros [_ H] Hi. rewrite Forall_forall in H.
  apply H. eapply nth_error_In; eauto.
Qed.

Lemma shape_ncols M n c : shape M n c -> 0 < n -> ncols M = c.
Proof.
  intros [Hn H] Hpos. destruct M as [|row M]; simpl in *; [lia|].
  now inversion H.
Qed.

Lemma getitem_ok M i :
  i < length M -> getitem M i = Ok (nth i M []).
Proof.
  intros Hi. unfold getitem.
  now rewrite (nth_error_nth' M [] Hi).
Qed.

Lemma getitem_out M i : length M <= i -> getitem M i = Raise IndexError.
Proof.
  intros Hi. unfold getitem.
  apply nth_error_None in Hi. now rewrite Hi.
Qed.

Lemma getitem2_ok M i j :
  i < length M -> j < length (nth i M []) ->
  getitem2 M i j = Ok (nth j (nth i M []) s0).
Proof.
  intros Hi Hj. unfold getitem2. rewrite getitem_ok by exact Hi. simpl.
  now rewrite (nth_error_nth' _ s0 Hj).
Qed.

Lemma getitem2_out M i j :
  length (nth i M []) <= j -> getitem2 M i j = Raise IndexError.
Proof.
  intros Hj. unfold getitem2, getitem.
  destruct (nth_error M i) as [row|] eqn:E; simpl; [|reflexivity].
  apply (nth_error_nth _ _ []) in E.
  rewrite E in Hj. apply nth_error_None in Hj. now rewrite Hj.
Qed.

Lemma getitem2_raises M i j e :
  getitem2 M i j = Raise e -> e = IndexError.
Proof.
  unfold getitem2, getitem.
  destruct (nth_error M i) as [row|]; simpl; [|congruence].
  destruct (nth_error row j); congruence.
Qed.

Lemma dot_mv_ok A v :
  Forall (fun a => length a = length v) A ->
  dot_mv A v = Ok (map (fun a => dotp a v) A).
Proof.
  intros H. unfold dot_mv.
  replace (forallb _ A) with true; [reflexivity|].
  symmetry. apply forallb_forall. rewrite Forall_forall in H.
  intros a Ha. apply Nat.eqb_eq. now apply H.
Qed.

Lemma dot_mv_shape A v k r :
  shape A k r -> length v = r ->
  dot_mv A v = Ok (map (fun a => dotp a v) A).
Proof.
  intros [_ H] Hv. apply dot_mv_ok. subst r. exact H.
Qed.

Lemma dot_mv_misaligned A v k r :
  shape A k r -> 0 < k -> length v <> r -> dot_mv A v = Raise ValueError.
Proof.
  intros [Hk H] Hpos Hv. unfold dot_mv.
  destruct A as [|a A]; simpl in *; [lia|].
  inversion H as [|? ? Ha _]; subst.
  destruct (Nat.eqb_spec (length a) (length v)); [congruence|reflexivity].
Qed.

Lemma dot_mm_ok A B :
  Forall (fun a => length a = length B) A ->
  dot_mm A B = Ok (map (fun a => map (fun b => dotp a b) (transpose B)) A).
Proof.
  intros H. unfold dot_mm.
  replace (forallb _ A) with true; [reflexivity|].
  symmetry. apply forallb_forall. rewrite Forall_forall in H.
  intros a Ha. apply Nat.eqb_eq. now apply H.
Qed.

(** *** Transposition *)

Lemma transpose_length M : length (transpose M) = ncols M.
Proof. unfold transpose, range. now rewrite length_map, length_seq. Qed.

Lemma transpose_shape M n c :
  shape M n c -> 0 < n -> shape (transpose M) c n.
Proof.
  intros HM Hn. split.
  - rewrite transpose_length. eapply shape_ncols; eauto.
  - unfold transpose. apply Forall_forall. intros col Hc.
    apply in_map_iff in Hc as [j [<- _]].
    rewrite length_map. eapply shape_length; eauto.
Qed.

Lemma transpose_nth M n c j :
  shape M n c -> 0 < n -> j < c ->
  nth j (transpose M) [] = map (fun row => nth j row s0) M.
Proof.
  intros HM Hn Hj. unfold transpose, range.
  rewrite (shape_ncols HM Hn).
  rewrite (nth_indep _ [] (map (fun row => nth 0 row s0) M))
    by now rewrite length_map, length_seq.
  rewrite (map_nth (fun j => map (fun row => nth j row s0) M)).
  now rewrite seq_nth.
Qed.

Lemma transpose_involutive M n c :
  shape M n c -> 0 < n -> 0 < c -> transpose (transpose M) = M.
Proof.
  intros HM Hn Hc.
  pose proof (transpose_shape HM Hn) as HT.
  apply (nth_ext _ _ [] []).
  - rewrite transpose_length, (shape_ncols HT Hc).
    symmetry. eapply shape_length; eauto.
  - intros i Hi. rewrite transpose_length, (shape_ncols HT Hc) in Hi.
    rewrite (transpose_nth HT Hc Hi).
    assert (Hrow : length (nth i M []) = c).
    { eapply shape_row; eauto. apply nth_error_nth'.
      now rewrite (shape_length HM). }
    apply (nth_ext _ _ s0 s0).
    + rewrite length_map, transpose_length, (shape_ncols HM Hn).
      now symmetry.
    + intros j Hj.
      rewrite length_map, transpose_length, (shape_ncols HM Hn) in Hj.
      rewrite (nth_indep _ s0 (nth i [] s0))
        by now rewrite length_map, transpose_length, (shape_ncols HM Hn).
      rewrite (map_nth (fun row => nth i row s0)).
      rewrite (transpose_nth HM Hn Hj).
      rewrite (nth_indep _ s0 (nth j [] s0))
        by (rewrite length_map; now rewrite (shape_length HM)).
      now rewrite (map_nth (fun row => nth j row s0)).
Qed.

End ArrayFacts.

(** ** The user sweep *)

Section Sweeps.
Context {F : Type} {SF : Scalar F}.
Variable pinv : mat F -> mat F.
Implicit Types (R Q P : mat F).

Lemma map_nth_range {C : Type} (h : vec F -> C) (M : mat F) :
  map (fun i => h (nth i M [])) (range (length M)) = map h M.
Proof.
  unfold range. induction M as [|row M IH]; simpl; [reflexivity|].
  f_equal. rewrite <- seq_shift, map_map. exact IH.
Qed.

Lemma fold_left_mapped {A B C : Type} (f : A -> C -> A) (g : B -> C)
    (l : list B) (a : A) :
  fold_left f (map g l) a = fold_left (fun a x => f a (g x)) l a.
Proof. revert a; induction l; intros; simpl; auto. Qed.

Lemma in_range i n : In i (range n) <-> i < n.
Proof. unfold range. rewrite in_seq. lia. Qed.


Lemma user_sweep_eq R Q m r k :
  shape R m r -> shape (pinv Q) k r ->
  user_sweep pinv R Q = Ok (map (matvec (pinv Q)) R).
Proof.
  intros HR HP. unfold user_sweep.
  rewrite (for_in_ext _ _
    (fun acc i =>
       let? y := (let? row := getitem R i in dot_mv (pinv Q) row) in
       Ok (acc ++ [y]))) by (intros; now destruct (getitem R x)).
  rewrite for_in_collect with (g := fun i => matvec (pinv Q) (nth i R [])).
  - simpl. now rewrite map_nth_range.
  - intros i Hi. apply in_range in Hi.
    rewrite getitem_ok by exact Hi. simpl. unfold matvec.
    apply (dot_mv_shape _ HP). apply (shape_row i HR).
    now apply nth_error_nth'.
Qed.



(** *** A row of sentinels *)

Lemma dotp_zero (a v : vec F) :
  Forall (fun x => smul x s0 = s0) a -> all_zero v ->
  sadd s0 s0 = s0 -> dotp a v = s0.
Proof.
  intros Ha Hv Hadd. unfold dotp.
  revert v Hv. induction Ha as [|x a Hx Ha IH]; intros v Hv.
  - reflexivity.
  - destruct Hv as [|y v Hy Hv]; [reflexivity|]. simpl.
    subst y. rewrite Hx, Hadd. now apply IH.
Qed.






(** ** The item sweep *)

Lemma map_nth_firstn {C : Type} (h : vec F -> C) (M : mat F) n :
  n <= length M ->
  map (fun i => h (nth i M [])) (range n) = map h (firstn n M).
Proof.
  intros Hn. rewrite <- (map_nth_range h (firstn n M)).
  rewrite length_firstn, Nat.min_l by exact Hn.
  apply map_ext_in. intros i Hi. apply in_range in Hi.
  f_equal. revert i M Hn Hi. clear.
  induction n as [|n IH]; intros i M Hn Hi; [lia|].
  destruct M as [|row M]; simpl in *; [lia|].
  destruct i as [|i]; [reflexivity|]. apply IH; lia.
Qed.

Lemma item_sweep_body_ext (Rt P : mat F) l acc :
  for_in l
    (fun new_items i =>
       let? col := getitem Rt i in
       let? item := dot_mv (pinv P) col in
       Ok (new_items ++ [item])) acc
  = for_in l
      (fun acc i =>
         let? y := (let? col := getitem Rt i in dot_mv (pinv P) col) in
         Ok (acc ++ [y])) acc.
Proof. apply for_in_ext. intros; now destruct (getitem Rt x). Qed.

Lemma item_solve_ok R P m r k i :
  shape R m r -> 0 < m -> shape (pinv P) k m -> i < r ->
  (let? col := getitem (transpose R) i in dot_mv (pinv P) col)
  = Ok (matvec (pinv P) (nth i (transpose R) [])).
Proof.
  intros HR Hm HP Hi.
  pose proof (transpose_shape HR Hm) as HT.
  rewrite getitem_ok by now rewrite (shape_length HT). simpl.
  apply (dot_mv_shape _ HP). apply (shape_row i HT).
  apply nth_error_nth'. now rewrite (shape_length HT).
Qed.

(** The item sweep makes one pass per row of the ratings, that is per
    user: with no more users than items it solves the first [m] items. *)
Lemma item_sweep_eq R P m r k :
  shape R m r -> 0 < m -> m <= r -> shape (pinv P) k m ->
  item_sweep pinv R (transpose R) P
  = Ok (map (matvec (pinv P)) (firstn m (transpose R))).
Proof.
  intros HR Hm Hmr HP. unfold item_sweep.
  rewrite item_sweep_body_ext.
  rewrite for_in_collect
    with (g := fun i => matvec (pinv P) (nth i (transpose R) [])).
  - simpl. rewrite (shape_length HR), map_nth_firstn; [reflexivity|].
    rewrite (shape_length (transpose_shape HR Hm)). exact Hmr.
  - intros i Hi. apply in_range in Hi. rewrite (shape_length HR) in Hi.
    eapply item_solve_ok; eauto. lia.
Qed.

(** With more users than items it reads past the last column. *)
Lemma item_sweep_index_error R P m r k :
  shape R m r -> r < m -> shape (pinv P) k m ->
  item_sweep pinv R (transpose R) P = Raise IndexError.
Proof.
  intros HR Hrm HP. unfold item_sweep.
  rewrite item_sweep_body_ext, (shape_length HR).
  assert (Hm : 0 < m) by lia.
  replace (range m) with (range r ++ r :: seq (S r) (m - S r)).
  - apply for_in_collect_raises
      with (g := fun i => matvec (pinv P) (nth i (transpose R) [])).
    + intros i Hi. apply in_range in Hi. eapply item_solve_ok; eauto.
    + rewrite getitem_out; [reflexivity|].
      now rewrite (shape_length (transpose_shape HR Hm)).
  - unfold range. change (r :: seq (S r) (m - S r)) with (seq r (S (m - S r))).
    rewrite <- seq_app. f_equal. lia.
Qed.

End Sweeps.

(** ** The reported error *)

Section MaskedError.
Context {F : Type} {SF : Scalar F}.
Implicit Types (R G : mat F).

Lemma masked_error_row_eq R G i err :
  i < length R ->
  masked_error_row R G i err
  = for_in
      (map (pair i)
         (filter (fun j => snz (nth j (nth i R []) s0))
            (range (length (nth i R [])))))
      (fun err ij =>
         let? g := getitem2 G (fst ij) (snd ij) in
         Ok (sadd err (sq (ssub (nth (snd ij) (nth (fst ij) R []) s0) g))))
      err.
Proof.
  intros Hi. unfold masked_error_row.
  rewrite getitem_ok by exact Hi. simpl.
  rewrite for_in_map, for_in_filter. apply for_in_ext.
  intros a j Hj. apply in_range in Hj.
  rewrite getitem2_ok by assumption. reflexivity.
Qed.

Lemma masked_error_eq R G : masked_error R G = masked_sum R G.
Proof.
  unfold masked_error, masked_sum, observed.
  rewrite for_in_flat_map. apply for_in_ext.
  intros a i Hi. apply in_range in Hi. now apply masked_error_row_eq.
Qed.

Lemma observed_spec R i j :
  In (i, j) (observed R) <->
  i < length R /\ j < length (nth i R []) /\
  snz (nth j (nth i R []) s0) = true.
Proof.
  unfold observed. rewrite in_flat_map. split.
  - intros [i' [Hi' Hin]]. apply in_map_iff in Hin as [j' [Heq Hj']].
    injection Heq as -> ->. apply filter_In in Hj' as [Hj' Hnz].
    apply in_range in Hi', Hj'. auto.
  - intros (Hi & Hj & Hnz). exists i. split; [now apply in_range|].
    apply in_map. apply filter_In. split; [now apply in_range | exact Hnz].
Qed.

Lemma masked_error_shaped R G m r :
  shape R m r -> shape G m r -> masked_error R G = Ok (masked_total R G).
Proof.
  intros HR HG. rewrite masked_error_eq.
  unfold masked_sum, masked_total. apply for_in_total.
  intros a [i j] Hij. apply observed_spec in Hij as (Hi & Hj & _).
  simpl. rewrite getitem2_ok; [reflexivity | | ].
  - now rewrite (shape_length HG), <- (shape_length HR).
  - rewrite (shape_length HR) in Hi.
    rewrite (shape_row i HG), <- (shape_row i HR (row := nth i R [])).
    + exact Hj.
    + apply nth_error_nth'. now rewrite (shape_length HR).
    + apply nth_error_nth'. now rewrite (shape_length HG).
Qed.

Lemma masked_error_agree R G G' :
  (forall i j, In (i, j) (observed R) -> getitem2 G' i j = getitem2 G i j) ->
  masked_error R G' = masked_error R G.
Proof.
  intros Hagree. rewrite !masked_error_eq. unfold masked_sum.
  apply for_in_ext. intros a [i j] Hij. simpl.
  now rewrite (Hagree i j Hij).
Qed.

End MaskedError.

(** ** Computations only extend the store *)

Section Frame.
Context {F : Type} {SF : Scalar F}.
Variable pinv : mat F -> mat F.
Implicit Types (s : @store F) (a : ndarray).

Lemma extends_refl s : extends s s.
Proof. exists [], []. now rewrite !app_nil_r. Qed.

Lemma extends_trans s1 s2 s3 : extends s1 s2 -> extends s2 s3 -> extends s1 s3.
Proof.
  intros (h & o & Hh & Ho) (h' & o' & Hh' & Ho').
  exists (h ++ h'), (o ++ o').
  now rewrite Hh', Ho', Hh, Ho, !app_assoc.
Qed.

Lemma extends_nth_error s s' l (A : mat F) :
  extends s s' -> nth_error (heap s) l = Some A ->
  nth_error (heap s') l = Some A.
Proof.
  intros (h & _ & -> & _) H. rewrite nth_error_app1; [exact H|].
  apply nth_error_Some. congruence.
Qed.

Lemma extends_contents s s' a (A : mat F) :
  extends s s' -> contents s a = Some A -> contents s' a = Some A.
Proof.
  intros He. destruct a as [l|l]; simpl.
  - now apply extends_nth_error.
  - destruct (nth_error (heap s) l) as [B|] eqn:E; simpl; [|discriminate].
    now rewrite (extends_nth_error _ He E).
Qed.

Lemma grows_ret {A} (x : A) : @grows F _ (ret x).
Proof. intros s. apply extends_refl. Qed.

Lemma grows_raise {A} e : @grows F _ (raise (F := F) (A := A) e).
Proof. intros s. apply extends_refl. Qed.

Lemma grows_lift {A} (r : res A) : @grows F _ (lift r).
Proof. intros s. apply extends_refl. Qed.

Lemma grows_deref a : @grows F _ (deref a).
Proof.
  intros s. unfold deref. destruct (contents s a); apply extends_refl.
Qed.

Lemma grows_new_array (A : mat F) : @grows F _ (new_array A).
Proof. intros s. exists [A], []. simpl. now rewrite app_nil_r. Qed.

Lemma grows_print (x : F) : @grows F _ (print x).
Proof. intros s. exists [], [x]. simpl. now rewrite app_nil_r. Qed.

Lemma grows_bind {A B} (m : M A) (k : A -> M B) :
  @grows F _ m -> (forall x, @grows F _ (k x)) -> @grows F _ (bind m k).
Proof.
  intros Hm Hk s. unfold bind. specialize (Hm s).
  destruct (m s) as [[x|e] s1]; simpl in *; [|exact Hm].
  eapply extends_trans; [exact Hm | apply Hk].
Qed.

Lemma grows_for_M {A B} (l : list B) (body : A -> B -> M A) (x : A) :
  (forall x y, @grows F _ (body x y)) -> @grows F _ (for_M l body x).
Proof.
  intros Hb. revert x. induction l as [|y l IH]; intros x; simpl.
  - apply grows_ret.
  - apply grows_bind; auto.
Qed.

Lemma grows_dot a b : @grows F _ (dot a b).
Proof.
  unfold dot.
  repeat (apply grows_bind; [|intros ?]);
    auto using grows_deref, grows_lift, grows_new_array.
Qed.

Lemma grows_iteration ratings ratings_cols lv :
  @grows F _ (iteration pinv ratings ratings_cols lv).
Proof.
  unfold iteration, asarray.
  repeat (apply grows_bind; [|intros ?]);
    auto using grows_deref, grows_lift, grows_new_array, grows_dot,
      grows_print, grows_ret.
Qed.

Lemma grows_als ratings users items reps :
  @grows F _ (als pinv ratings users items reps).
Proof.
  unfold als. apply grows_bind.
  - apply grows_for_M. intros; apply grows_iteration.
  - intros lv. destruct (v_new_users lv), (v_new_items lv);
      auto using grows_dot, grows_raise.
Qed.

(** C9: a call of [als] leaves the ratings as they were: after the call,
    returned or raised, after any number of passes, the array [ratings] and
    its transposed view hold the entries they held before. *)
Theorem als_never_writes_ratings (s : @store F) ratings users items reps R :
  contents s ratings = Some R ->
  let s' := snd (als pinv ratings users items reps s) in
  contents s' ratings = Some R /\
  contents s' (T ratings) = contents s (T ratings) /\
  forall a A, contents s a = Some A -> contents s' a = Some A.
Proof.
  intros HR s'.
  assert (He : extends s s') by apply grows_als.
  split; [now apply (extends_contents _ He)|]. split.
  - destruct (contents s (T ratings)) as [Rt|] eqn:E.
    + now apply (extends_contents _ He).
    + destruct ratings as [l|l]; simpl in *;
        destruct (nth_error (heap s) l); discriminate.
  - intros a A. now apply extends_contents.
Qed.

End Frame.

(** ** A call computes [als_fun] *)

Section Simulation.
Unset Implicit Arguments.
Context {F : Type} {SF : Scalar F}.
Variable pinv : mat F -> mat F.
Implicit Types (s : @store F) (a : ndarray) (h : list (mat F)).

Lemma nth_error_old h h' l (A : mat F) :
  nth_error h l = Some A -> nth_error (h ++ h') l = Some A.
Proof.
  intros H. rewrite nth_error_app1; [exact H|].
  apply nth_error_Some. congruence.
Qed.

Lemma nth_error_new h h' (A : mat F) :
  nth_error (h ++ A :: h') (length h) = Some A.
Proof. rewrite nth_error_app2, Nat.sub_diag by lia. reflexivity. Qed.

Lemma nth_error_new2 h h' (A B : mat F) :
  nth_error (h ++ A :: B :: h') (S (length h)) = Some B.
Proof.
  rewrite nth_error_app2 by lia.
  replace (S (length h) - length h) with 1 by lia. reflexivity.
Qed.

Lemma deref_run s a (A : mat F) :
  contents s a = Some A -> deref a s = (Ok A, s).
Proof. intros H. unfold deref. now rewrite H. Qed.

Lemma dot_run s a b (A B : mat F) :
  contents s a = Some A -> contents s b = Some B ->
  dot a b s
  = match dot_mm A B with
    | Ok C => (Ok (Arr (length (heap s))),
               mkStore (heap s ++ [C]) (stdout s))
    | Raise e => (Raise e, s)
    end.
Proof.
  intros Ha Hb. unfold dot, bind.
  rewrite (deref_run _ _ _ Ha), (deref_run _ _ _ Hb). unfold lift.
  now destruct (dot_mm A B).
Qed.

(** One pass of the loop, from locals that hold [Q]. *)
Lemma iteration_run s lr lv (R Q : mat F) :
  nth_error (heap s) lr = Some R ->
  contents s (v_items lv) = Some Q ->
  iteration pinv (Arr lr) (ArrT lr) lv s
  = (let? _ := step_fun pinv R Q in
     Ok (mkLocals (Arr (S (length (heap s))))
           (Some (Arr (length (heap s))))
           (Some (Arr (S (length (heap s)))))),
     mkStore (heap s ++ step_allocs pinv R Q)
       (stdout s ++ step_out pinv R Q)).
Proof.
  intros HR HQ. destruct s as [h o]. simpl in HR.
  unfold step_out, step_allocs, step_fun, iteration, bind.
  rewrite (deref_run (mkStore h o) (Arr lr) R HR), (deref_run _ _ _ HQ).
  unfold lift at 1. simpl heap; simpl stdout.
  destruct (user_sweep pinv R Q) as [P'|e]; simpl rbind;
    [|now rewrite !app_nil_r].
  unfold asarray at 1, new_array at 1. simpl heap; simpl stdout.
  rewrite (deref_run (mkStore (h ++ [P']) o) (Arr lr) R)
    by (simpl; now apply nth_error_old).
  rewrite (deref_run (mkStore (h ++ [P']) o) (ArrT lr) (transpose R))
    by (simpl; now rewrite (nth_error_old _ _ _ _ HR)).
  rewrite (deref_run (mkStore (h ++ [P']) o) (Arr (length h)) P')
    by (simpl; apply nth_error_new).
  unfold lift at 1.
  destruct (item_sweep pinv R (transpose R) P') as [Q'|e]; simpl rbind;
    [|now rewrite !app_nil_r].
  unfold asarray at 1, new_array at 1. simpl heap; simpl stdout.
  rewrite <- app_assoc. simpl app.
  rewrite (dot_run (mkStore (h ++ [P'; Q']) o) (Arr (length h))
             (T (Arr (length (h ++ [P'])))) P' (transpose Q')).
  2: simpl; apply nth_error_new.
  2: { unfold T, contents. simpl heap.
       change (h ++ [P'; Q']) with (h ++ ([P'] ++ [Q'])).
       rewrite app_assoc, nth_error_new. reflexivity. }
  destruct (dot_mm P' (transpose Q')) as [G|e]; simpl rbind;
    [|now rewrite !app_nil_r].
  simpl heap; simpl stdout. rewrite <- app_assoc. simpl app.
  rewrite (deref_run (mkStore (h ++ [P'; Q'; G]) o) (Arr lr) R)
    by (simpl; now apply nth_error_old).
  rewrite (deref_run (mkStore (h ++ [P'; Q'; G]) o)
             (Arr (length (h ++ [P'; Q']))) G).
  2: { unfold contents. simpl heap.
       change (h ++ [P'; Q'; G]) with (h ++ ([P'; Q'] ++ [G])).
       rewrite app_assoc. apply nth_error_new. }
  unfold lift at 1.
  destruct (masked_error R G) as [err|e]; simpl rbind;
    [|now rewrite !app_nil_r].
  unfold print, ret. simpl.
  rewrite length_app. simpl. now rewrite Nat.add_1_r.
Qed.

Lemma step_allocs_ok (R Q P' Q' : mat F) (err : F) :
  step_fun pinv R Q = Ok (P', Q', err) ->
  step_out pinv R Q = [err] /\
  exists G,
    step_allocs pinv R Q = [P'; Q'; G] /\
    dot_mm P' (transpose Q') = Ok G /\ masked_error R G = Ok err.
Proof.
  unfold step_out, step_allocs, step_fun.
  destruct (user_sweep pinv R Q) as [P1|]; simpl; [|discriminate].
  destruct (item_sweep pinv R (transpose R) P1) as [Q1|]; simpl;
    [|discriminate].
  destruct (dot_mm P1 (transpose Q1)) as [G|] eqn:HG; simpl; [|discriminate].
  destruct (masked_error R G) as [e1|] eqn:He; simpl; [|discriminate].
  intros H. injection H as <- <- <-. split; [reflexivity|].
  exists G. now rewrite HG, He.
Qed.


(** The loop of [als], from any pass on. *)
Lemma loop_run lr (R : mat F) (n : nat) :
  forall (a : nat) s lv (Q : mat F) last,
    nth_error (heap s) lr = Some R ->
    locals_hold s lv Q last ->
    exists h',
      let s' := mkStore (heap s ++ h')
                  (stdout s ++ fst (als_trace pinv R Q last n)) in
      match snd (als_trace pinv R Q last n) with
      | Ok last' =>
          exists lv' Q',
            for_M (seq a n)
              (fun lv _ => iteration pinv (Arr lr) (ArrT lr) lv) lv s
            = (Ok lv', s') /\
            locals_hold s' lv' Q' last'
      | Raise e =>
          for_M (seq a n)
            (fun lv _ => iteration pinv (Arr lr) (ArrT lr) lv) lv s
          = (Raise e, s')
      end.
Proof.
  induction n as [|n IH]; intros a s lv Q last HR Hlv.
  - exists []. simpl. exists lv, Q. destruct s as [h o]; simpl.
    rewrite !app_nil_r. split; [reflexivity | exact Hlv].
  - simpl seq. simpl for_M. unfold bind.
    rewrite (iteration_run s lr lv R Q HR (proj1 Hlv)).
    simpl als_trace.
    destruct (step_fun pinv R Q) as [[[P' Q'] err]|e] eqn:Estep.
    + destruct (step_allocs_ok _ _ _ _ _ Estep) as [-> [G [-> _]]].
      simpl rbind. cbv iota.
      set (s1 := mkStore (heap s ++ [P'; Q'; G]) (stdout s ++ [err])).
      set (lv1 := mkLocals _ _ _).
      assert (HR1 : nth_error (heap s1) lr = Some R)
        by (simpl; now apply nth_error_old).
      assert (Hlv1 : locals_hold s1 lv1 Q' (Some (P', Q'))).
      { split; [|exists (length (heap s)), (S (length (heap s)))];
          unfold contents, s1, lv1;
          cbn [v_items v_new_users v_new_items heap].
        - apply nth_error_new2.
        - repeat split; [apply nth_error_new | apply nth_error_new2]. }
      destruct (IH (S a) s1 lv1 Q' (Some (P', Q')) HR1 Hlv1) as [h1 H1].
      exists ([P'; Q'; G] ++ h1).
      destruct (als_trace pinv R Q' (Some (P', Q')) n) as [out r].
      cbn [fst snd] in *. cbv zeta in H1.
      replace (heap s ++ [P'; Q'; G] ++ h1) with (heap s1 ++ h1)
        by (unfold s1; cbn [heap]; now rewrite <- app_assoc).
      replace (stdout s ++ err :: out) with (stdout s1 ++ out)
        by (unfold s1; cbn [stdout]; now rewrite <- app_assoc).
      exact H1.
    + simpl. exists (step_allocs pinv R Q).
      unfold step_out. rewrite Estep. reflexivity.
Qed.

(** A call of [als], observed by its caller, computes [als_fun] of the
    entries of [ratings] and [items]: the result or exception, and what is
    printed. *)
Lemma als_result_run s lr users items reps (R Q : mat F) :
  nth_error (heap s) lr = Some R ->
  contents s items = Some Q ->
  exists h',
    als_result pinv (Arr lr) users items reps s
    = (snd (als_fun pinv R Q reps),
       mkStore (heap s ++ h') (stdout s ++ fst (als_fun pinv R Q reps))).
Proof.
  intros HR HQ. unfold als_result, als, als_fun, bind, T, range.
  destruct (loop_run lr R reps 0 s (mkLocals items None None) Q None HR)
    as [h' H]; [now split|].
  destruct (als_trace pinv R Q None reps) as [out [last|e]];
    simpl in H |- *.
  - destruct H as (lv' & Q' & -> & Hlv'). destruct Hlv' as [_ Hlast].
    destruct last as [[P Qn]|].
    + destruct Hlast as (lp & lq & -> & -> & Hp & Hq).
      cbn [heap] in Hp, Hq.
      rewrite (dot_run _ (Arr lp) (ArrT lq) P (transpose Qn))
        by (unfold contents; cbn [heap]; rewrite ?Hp, ?Hq; reflexivity).
      destruct (dot_mm P (transpose Qn)) as [C|e]; simpl.
      * exists (h' ++ [C]). unfold deref. simpl.
        rewrite nth_error_new. now rewrite <- app_assoc.
      * now exists h'.
    + destruct Hlast as [-> _]. now exists h'.
  - rewrite H. now exists h'.
Qed.

End Simulation.

Set Implicit Arguments.

(** ** What one pass computes *)

Section Passes.
Context {F : Type} {SF : Scalar F}.
Variable pinv : mat F -> mat F.
Implicit Types (s : @store F) (R Q P G : mat F).


(** C6: the error is the sum, over exactly the index pairs at which the
    rating is nonzero, of the squared difference between the rating and the
    reconstruction; what the reconstruction holds at a pair whose rating is
    zero has no part in it.  A pass that reaches its [print] prints this sum
    for the reconstruction [new_users.dot(new_items.T)] of that pass. *)
Theorem masked_error_sums_observed R G :
  masked_error R G = masked_sum R G /\
  (forall i j, In (i, j) (observed R) <->
     i < length R /\ j < length (nth i R []) /\
     snz (nth j (nth i R []) s0) = true) /\
  (forall m r, shape R m r -> shape G m r ->
     masked_error R G = Ok (masked_total R G)) /\
  (forall G',
     (forall i j, In (i, j) (observed R) ->
        getitem2 G' i j = getitem2 G i j) ->
     masked_error R G' = masked_error R G) /\
  (forall s lr lv Q lv',
     nth_error (heap s) lr = Some R ->
     contents s (v_items lv) = Some Q ->
     let run := iteration pinv (Arr lr) (T (Arr lr)) lv s in
     fst run = Ok lv' ->
     exists P' Q' G' err,
       heap (snd run) = heap s ++ [P'; Q'; G'] /\
       dot_mm P' (transpose Q') = Ok G' /\
       stdout (snd run) = stdout s ++ [err] /\
       masked_sum R G' = Ok err).
Proof.
  split; [apply masked_error_eq|].
  split; [apply observed_spec|].
  split; [intros m r; apply masked_error_shaped|].
  split; [intros G'; apply masked_error_agree|].
  intros s lr lv Q lv' Hlr Hitems run. subst run. simpl T.
  rewrite (iteration_run pinv s lr lv R Q Hlr Hitems). simpl.
  destruct (step_fun pinv R Q) as [[[P' Q'] err]|] eqn:Estep; simpl;
    [|discriminate].
  intros _.
  destruct (step_allocs_ok pinv R Q P' Q' err Estep)
    as [Hout (G' & Hallocs & Hdot & Herr)].
  exists P', Q', G', err. rewrite Hallocs, Hout.
  now rewrite <- masked_error_eq.
Qed.

End Passes.

(** ** What a call depends on *)

Section Dependence.
Context {F : Type} {SF : Scalar F}.
Variable pinv : mat F -> mat F.
Implicit Types (s : @store F).

Lemma printed_app s (h : list (mat F)) (out : list F) :
  printed s (mkStore h (stdout s ++ out)) = out.
Proof.
  unfold printed. simpl. rewrite skipn_app, skipn_all, Nat.sub_diag.
  reflexivity.
Qed.

(** C7: the initial user factors have no part in a call.  Two calls on
    the same ratings, item factors and number of passes return the same
    matrix or raise the same exception, and print the same errors, whatever
    their [users] arguments are: arrays of different entries and shapes in
    two stores, or different handles, valid or not, in one store. *)
Theorem als_ignores_users s1 s2 lr1 lr2 users1 users2 i1 i2 reps
    (R Q : mat F) :
  contents s1 (Arr lr1) = Some R -> contents s2 (Arr lr2) = Some R ->
  contents s1 i1 = Some Q -> contents s2 i2 = Some Q ->
  let run1 := als_result pinv (Arr lr1) users1 i1 reps s1 in
  let run2 := als_result pinv (Arr lr2) users2 i2 reps s2 in
  (fst run1 = fst run2 /\
   printed s1 (snd run1) = printed s2 (snd run2)) /\
  als_result pinv (Arr lr1) users2 i1 reps s1 = run1.
Proof.
  intros HR1 HR2 HQ1 HQ2 run1 run2. subst run1 run2.
  split; [|reflexivity].
  destruct (als_result_run pinv s1 lr1 users1 i1 reps R Q HR1 HQ1)
    as [h1 ->].
  destruct (als_result_run pinv s2 lr2 users2 i2 reps R Q HR2 HQ2)
    as [h2 ->].
  simpl fst; simpl snd. now rewrite !printed_app.
Qed.

(** C8: a call is a function of its inputs.  Two calls, in any two stores,
    whose [ratings], [users] and [items] arrays hold the same entries and
    whose numbers of passes are the same, return the same matrix or raise
    the same exception, and print the same sequence of errors. *)
Theorem als_deterministic s1 s2 lr1 lr2 u1 u2 i1 i2 reps (R P0 Q : mat F) :
  contents s1 (Arr lr1) = Some R -> contents s2 (Arr lr2) = Some R ->
  contents s1 u1 = Some P0 -> contents s2 u2 = Some P0 ->
  contents s1 i1 = Some Q -> contents s2 i2 = Some Q ->
  let run1 := als_result pinv (Arr lr1) u1 i1 reps s1 in
  let run2 := als_result pinv (Arr lr2) u2 i2 reps s2 in
  fst run1 = fst run2 /\
  printed s1 (snd run1) = printed s2 (snd run2).
Proof.
  intros HR1 HR2 _ _ HQ1 HQ2 run1 run2. subst run1 run2.
  destruct (als_result_run pinv s1 lr1 u1 i1 reps R Q HR1 HQ1) as [h1 ->].
  destruct (als_result_run pinv s2 lr2 u2 i2 reps R Q HR2 HQ2) as [h2 ->].
  simpl fst; simpl snd. now rewrite !printed_app.
Qed.

(** Without a pass, the [return] reads [new_users] before any assignment. *)
Lemma als_no_pass_unbound s ratings users items :
  fst (als pinv ratings users items 0 s) = Raise UnboundLocalError.
Proof. reflexivity. Qed.

End Dependence.

(** ** The shapes of one iteration *)

Section Shapes.
Context {F : Type} {SF : Scalar F}.
Variable pinv : mat F -> mat F.
Hypothesis pinv_shape : pinv_shaped pinv.
Implicit Types (R Q P G : mat F).

Lemma matvec_rows_shape (A : mat F) (rows : list (vec F)) n k :
  length A = k -> length rows = n -> shape (map (matvec A) rows) n k.
Proof.
  intros HA Hrows. split; [now rewrite length_map|].
  apply Forall_forall. intros row Hrow.
  apply in_map_iff in Hrow as [v [<- _]].
  unfold matvec. now rewrite length_map.
Qed.

(** [P.dot(Q.T)]: entry (i, j) is the product of row i of [P] with row j
    of [Q]. *)
Lemma dot_mm_transpose P Q m n k :
  shape P m k -> shape Q n k -> 0 < n -> 0 < k ->
  dot_mm P (transpose Q) = Ok (map (fun p => map (fun q => dotp p q) Q) P).
Proof.
  intros HP HQ Hn Hk.
  rewrite dot_mm_ok.
  - now rewrite (transpose_involutive HQ Hn Hk).
  - rewrite (shape_length (transpose_shape HQ Hn)). apply HP.
Qed.

Lemma dot_mm_transpose_shape P Q m n k :
  shape P m k -> shape Q n k ->
  shape (map (fun p => map (fun q => dotp p q) Q) P) m n.
Proof.
  intros HP HQ. split; [rewrite length_map; apply HP|].
  apply Forall_forall. intros row Hrow.
  apply in_map_iff in Hrow as [p [<- _]].
  rewrite length_map. apply HQ.
Qed.

(** With no more users than items, the two sweeps and the product go
    through, and the product is users-by-users. *)
Lemma step_shapes R Q m r k :
  shape R m r -> 0 < m -> m <= r -> 0 < k -> shape (pinv Q) k r ->
  exists P' Q' G,
    user_sweep pinv R Q = Ok P' /\
    item_sweep pinv R (transpose R) P' = Ok Q' /\
    dot_mm P' (transpose Q') = Ok G /\
    shape P' m k /\ shape Q' m k /\ shape G m m.
Proof.
  intros HR Hm Hmr Hk HQ.
  assert (HP' : shape (map (matvec (pinv Q)) R) m k)
    by (apply matvec_rows_shape; [apply HQ | apply HR]).
  pose proof (pinv_shape HP' Hm) as HpP.
  assert (HQ' : shape (map (matvec (pinv (map (matvec (pinv Q)) R)))
                         (firstn m (transpose R))) m k).
  { apply matvec_rows_shape; [apply HpP|].
    rewrite length_firstn, (shape_length (transpose_shape HR Hm)). lia. }
  eexists _, _, _.
  split; [eapply user_sweep_eq; eauto|].
  split; [eapply item_sweep_eq; eauto|].
  split; [eapply dot_mm_transpose; eauto|].
  split; [exact HP'|]. split; [exact HQ'|].
  eapply dot_mm_transpose_shape; eauto.
Qed.

(** The error loop reads the reconstruction at every observed pair: one
    beyond its columns raises. *)
Lemma masked_error_index_error R G m c i j :
  shape G m c -> In (i, j) (observed R) -> c <= j ->
  masked_error R G = Raise IndexError.
Proof.
  intros HG Hij Hcj. rewrite masked_error_eq. unfold masked_sum.
  apply for_in_raises.
  - intros a [i' j'] _ e. simpl.
    destruct (getitem2 G i' j') eqn:E; simpl; [discriminate|].
    intros H. injection H as <-. now apply getitem2_raises in E.
  - exists (i, j). split; [exact Hij|]. intros a. simpl.
    rewrite getitem2_out; [reflexivity|].
    destruct (nth_error G i) as [row|] eqn:E.
    + rewrite (nth_error_nth _ _ [] E). now rewrite (shape_row i HG E).
    + apply nth_error_None in E. rewrite nth_overflow by exact E.
      simpl. lia.
Qed.

(** With fewer users than items and a rating observed in a column past the
    users, the first pass raises [IndexError]. *)
Lemma step_index_error R Q m r k i j :
  shape R m r -> 0 < m -> m <= r -> 0 < k -> shape (pinv Q) k r ->
  In (i, j) (observed R) -> m <= j ->
  step_fun pinv R Q = Raise IndexError.
Proof.
  intros HR Hm Hmr Hk HQ Hij Hj.
  destruct (step_shapes HR Hm Hmr Hk HQ)
    as (P' & Q' & G & HP & HQ' & HG & _ & _ & HGs).
  unfold step_fun. rewrite HP; simpl. rewrite HQ'; simpl. rewrite HG; simpl.
  now rewrite (@masked_error_index_error R G m m i j HGs Hij Hj).
Qed.

(** With item factors of one row per user, as the item sweep leaves them,
    and a ratings array that is not square, the next user sweep raises
    [ValueError]: the pseudo-inverse has [m] columns and a ratings row [r]
    entries. *)
Lemma next_user_sweep_value_error R Q' m r k :
  shape R m r -> 0 < m -> m <> r -> 0 < k -> shape (pinv Q') k m ->
  user_sweep pinv R Q' = Raise ValueError.
Proof.
  intros HR Hm Hmr Hk HQ'. unfold user_sweep, range.
  rewrite (shape_length HR). destruct m as [|m]; [lia|].
  simpl seq. simpl for_in.
  rewrite getitem_ok by (rewrite (shape_length HR); lia). simpl.
  rewrite (dot_mv_misaligned (nth 0 R []) HQ' Hk); [reflexivity|].
  rewrite (shape_row 0 HR (row := nth 0 R [])); [congruence|].
  apply nth_error_nth'. rewrite (shape_length HR). lia.
Qed.

(** *** As many users as items *)

Lemma step_square R Q m k :
  shape R m m -> 0 < m -> 0 < k -> shape (pinv Q) k m ->
  exists P' Q' err,
    step_fun pinv R Q = Ok (P', Q', err) /\
    shape P' m k /\ shape Q' m k /\ shape (pinv Q') k m.
Proof.
  intros HR Hm Hk HQ.
  destruct (step_shapes HR Hm (Nat.le_refl m) Hk HQ)
    as (P' & Q' & G & HP & HQ' & HG & HPs & HQs & HGs).
  exists P', Q', (masked_total R G).
  unfold step_fun. rewrite HP; simpl. rewrite HQ'; simpl. rewrite HG; simpl.
  rewrite (masked_error_shaped HR HGs). simpl.
  repeat split; try apply HPs; try apply HQs;
    now apply (pinv_shape HQs Hm).
Qed.

Lemma als_trace_square R m k (n : nat) :
  shape R m m -> 0 < m -> 0 < k ->
  forall Q last,
    shape (pinv Q) k m ->
    match last with
    | Some (P, Qn) => shape P m k /\ shape Qn m k
    | None => 0 < n
    end ->
    exists out P Qn,
      als_trace pinv R Q last n = (out, Ok (Some (P, Qn))) /\
      length out = n /\ shape P m k /\ shape Qn m k.
Proof.
  intros HR Hm Hk. induction n as [|n IH]; intros Q last HQ Hlast.
  - destruct last as [[P Qn]|]; [|lia].
    exists [], P, Qn. simpl. tauto.
  - destruct (step_square HR Hm Hk HQ)
      as (P' & Q' & err & Hstep & HP's & HQ's & HpQ').
    destruct (IH Q' (Some (P', Q')) HpQ' (conj HP's HQ's))
      as (out & P & Qn & Htr & Hlen & HPs & HQs).
    exists (err :: out), P, Qn. simpl.
    rewrite Hstep, Htr. simpl. auto.
Qed.

(** X18: on a square ratings array the call returns: it makes every pass,
    prints one error per pass, and its result has the shape of the
    ratings. *)
Lemma als_square_returns (s : @store F) lr users items reps R Q m k :
  nth_error (heap s) lr = Some R -> contents s items = Some Q ->
  shape R m m -> 0 < m -> 0 < k -> shape (pinv Q) k m -> 0 < reps ->
  exists G,
    fst (als_result pinv (Arr lr) users items reps s) = Ok G /\
    shape G m m /\
    length (printed s (snd (als_result pinv (Arr lr) users items reps s)))
    = reps.
Proof.
  intros Hlr Hitems HR Hm Hk HQ Hreps.
  destruct (als_result_run pinv s lr users items reps R Q Hlr Hitems)
    as [h' ->].
  simpl fst; simpl snd. rewrite printed_app. unfold als_fun.
  destruct (@als_trace_square R m k reps HR Hm Hk Q None HQ Hreps)
    as (out & P & Qn & -> & Hlen & HPs & HQs).
  simpl. rewrite (dot_mm_transpose HPs HQs Hm Hk).
  eexists. split; [reflexivity|]. split; [|exact Hlen].
  eapply dot_mm_transpose_shape; eauto.
Qed.

End Shapes.

(** * The scenarios of the specification *)

Import Rational Scenario.
Close Scope Q_scope.

(** The rational pseudo-inverse has the shape the model asks for. *)
Lemma pinv_is_shaped : pinv_shaped Rational.pinv.
Proof.
  intros A n k HA Hn. unfold Rational.pinv, range. split.
  - rewrite length_map, length_seq. now apply (shape_ncols HA).
  - apply Forall_forall. intros row Hrow.
    apply in_map_iff in Hrow as [i [<- _]].
    rewrite length_map, length_seq. apply HA.
Qed.

(** It satisfies the four Moore-Penrose equations, and is its own inverse
    operation, on an array of full rank and on one of rank one. *)
Example pinv_moore_penrose :
  Forall
    (fun A =>
       let A' := Rational.pinv A in
       mmul (mmul A A') A = A /\ mmul (mmul A' A) A' = A' /\
       transpose (mmul A A') = mmul A A' /\
       transpose (mmul A' A) = mmul A' A /\
       Rational.pinv A' = A)
    [items_5x10; rank_one_2x3].
Proof. repeat constructor; vm_compute; reflexivity. Qed.

Ltac shape_of := split; [reflexivity | repeat constructor].

(** C1 (the code departs from it): on the two-by-five ratings the item
    sweep that follows the user sweep returns two factor rows, one per user,
    for five items: the rows of items 2, 3 and 4 are never solved.  Its loop
    runs over [range(len(ratings))], the number of users. *)
Theorem item_sweep_stops_at_users :
  rmap (@length _)
    (let? P' := user_sweep Rational.pinv ratings_2x5 items_5x10 in
     item_sweep Rational.pinv ratings_2x5 (transpose ratings_2x5) P')
  = Ok 2 /\
  dims ratings_2x5 = (2, 5).
Proof. split; vm_compute; reflexivity. Qed.

(** C2 (the code departs from it): on a two-by-three ratings array whose
    third item is unrated, the first pass ends normally and leaves in the
    store, after the caller's three arrays, user factors and item factors of
    two rows each and a reconstruction of shape (2, 2), not (2, 3). *)
Theorem reconstruction_is_users_by_users :
  let run := iteration Rational.pinv (Arr 0) (T (Arr 0))
               (mkLocals (Arr 2) None None) store_2x3 in
  fst run = Ok (mkLocals (Arr 4) (Some (Arr 3)) (Some (Arr 4))) /\
  map dims (heap (snd run))
  = [(2, 3); (2, 1); (3, 1); (2, 1); (2, 1); (2, 2)] /\
  stdout (snd run) = [36 # 13]%Q.
Proof. repeat split; vm_compute; reflexivity. Qed.

(** C3 (the code departs from it): on the same input a call of one pass
    returns a two-by-two matrix: it holds no prediction for the third item,
    and reading entry (0, 2) of it is out of bounds. *)
Theorem als_returns_users_by_users :
  let run := als_result Rational.pinv (Arr 0) (Arr 1) (Arr 2) 1 store_2x3 in
  fst run = Ok [[8 # 13; 18 # 13]; [12 # 13; 27 # 13]]%Q /\
  dims ratings_2x3 = (2, 3) /\
  (let? G := fst run in getitem2 G 0 2) = Raise IndexError.
Proof. repeat split; vm_compute; reflexivity. Qed.

(** C4 (the code departs from it): on the ratings of the scenario, with any
    five-by-ten item factors, any user factors and any pseudo-inverse of the
    right shapes, a call of one or more passes raises [IndexError] in its
    first pass and prints no error: the reconstruction is two-by-two, and the
    error loop reads it at the observed pair (0, 4). *)
Theorem scenario_raises_index_error (pinv : qmat -> qmat) (s : @store Q)
    lr users items (Q0 : qmat) reps :
  pinv_shaped pinv ->
  nth_error (heap s) lr = Some ratings_2x5 ->
  contents s items = Some Q0 -> shape Q0 5 10 -> 0 < reps ->
  let run := als_result pinv (Arr lr) users items reps s in
  fst run = Raise IndexError /\ printed s (snd run) = [].
Proof.
  intros Hpinv Hlr Hitems HQ0 Hreps run. subst run.
  destruct (als_result_run pinv s lr users items reps _ _ Hlr Hitems)
    as [h' ->].
  simpl fst; simpl snd. rewrite printed_app. unfold als_fun.
  destruct reps as [|n]; [lia|]. simpl als_trace.
  rewrite (@step_index_error _ _ pinv Hpinv ratings_2x5 Q0 2 5 10 0 4).
  - split; reflexivity.
  - shape_of.
  - lia.
  - lia.
  - lia.
  - apply Hpinv; [exact HQ0 | lia].
  - vm_compute. auto.
  - lia.
Qed.

Lemma scenario_raises_index_error_witness :
  let run := als_result Rational.pinv (Arr 0) (Arr 1) (Arr 2) 1 store_2x5 in
  fst run = Raise IndexError /\ printed store_2x5 (snd run) = [].
Proof.
  apply (@scenario_raises_index_error Rational.pinv store_2x5 0 (Arr 1)
           (Arr 2) items_5x10 1).
  - exact pinv_is_shaped.
  - reflexivity.
  - reflexivity.
  - shape_of.
  - lia.
Defined.

(** ** Instances of the general statements *)


Lemma masked_error_sums_observed_witness :
  masked_error ratings_2x3 guess_2x3
  = Ok (masked_total ratings_2x3 guess_2x3) /\
  masked_error ratings_2x3 guess_2x3' = masked_error ratings_2x3 guess_2x3 /\
  let run := iteration Rational.pinv (Arr 0) (T (Arr 0))
               (mkLocals (Arr 2) None None) store_2x3 in
  exists P' Q' G' err,
    heap (snd run) = heap store_2x3 ++ [P'; Q'; G'] /\
    dot_mm P' (transpose Q') = Ok G' /\
    stdout (snd run) = stdout store_2x3 ++ [err] /\
    masked_sum ratings_2x3 G' = Ok err.
Proof.
  destruct (@masked_error_sums_observed Q _ Rational.pinv ratings_2x3
              guess_2x3) as (_ & _ & Hshaped & Hagree & Hpass).
  split; [apply (Hshaped 2 3); shape_of|]. split.
  - apply Hagree. intros i j Hij. vm_compute in Hij.
    destruct Hij as [H|[H|[]]]; injection H as <- <-; reflexivity.
  - apply (Hpass store_2x3 0 (mkLocals (Arr 2) None None) items_3x1
             (mkLocals (Arr 4) (Some (Arr 3)) (Some (Arr 4)))).
    + reflexivity.
    + reflexivity.
    + vm_compute. reflexivity.
Defined.

Lemma qmul_zero (x : Q) : smul x s0 = s0.
Proof. apply (Qred_complete (x * 0) 0). ring. Qed.




Lemma als_never_writes_ratings_witness :
  let s' := snd (als Rational.pinv (Arr 0) (Arr 1) (Arr 2) 1 store_2x5) in
  contents s' (Arr 0) = Some ratings_2x5 /\
  contents s' (T (Arr 0)) = contents store_2x5 (T (Arr 0)) /\
  forall a A, contents store_2x5 a = Some A -> contents s' a = Some A.
Proof.
  apply (@als_never_writes_ratings Q _ Rational.pinv store_2x5 (Arr 0)
           (Arr 1) (Arr 2) 1 ratings_2x5).
  reflexivity.
Defined.

Lemma als_ignores_users_witness :
  let run1 := als_result Rational.pinv (Arr 0) (Arr 1) (Arr 2) 2 store_2x2 in
  let run2 := als_result Rational.pinv (Arr 3) (Arr 1) (Arr 0) 2 store_2x2' in
  (fst run1 = fst run2 /\
   printed store_2x2 (snd run1) = printed store_2x2' (snd run2)) /\
  als_result Rational.pinv (Arr 0) (Arr 1) (Arr 2) 2 store_2x2 = run1.
Proof.
  apply (@als_ignores_users Q _ Rational.pinv store_2x2 store_2x2' 0 3
           (Arr 1) (Arr 1) (Arr 2) (Arr 0) 2 ratings_2x2 items_2x1');
    reflexivity.
Defined.

Lemma als_deterministic_witness :
  let run1 := als_result Rational.pinv (Arr 0) (Arr 1) (Arr 2) 2 store_2x2 in
  let run2 := als_result Rational.pinv (Arr 3) (Arr 2) (Arr 0) 2 store_2x2' in
  fst run1 = fst run2 /\
  printed store_2x2 (snd run1) = printed store_2x2' (snd run2).
Proof.
  apply (@als_deterministic Q _ Rational.pinv store_2x2 store_2x2' 0 3
           (Arr 1) (Arr 2) (Arr 2) (Arr 0) 2 ratings_2x2 users_2x1
           items_2x1');
    reflexivity.
Defined.

(** * Further properties of [als] *)

(** ** The outcome of a call, by the shape of the ratings *)

Section Outcomes.
Context {F : Type} {SF : Scalar F}.
Variable pinv : mat F -> mat F.
Hypothesis pinv_shape : pinv_shaped pinv.
Implicit Types (s : @store F) (R Q P G : mat F).

Lemma als_fun_first_raise R Q e reps :
  step_fun pinv R Q = Raise e -> 0 < reps ->
  als_fun pinv R Q reps = ([], Raise e).
Proof.
  intros Hstep Hreps. unfold als_fun.
  destruct reps as [|n]; [lia|]. simpl. now rewrite Hstep.
Qed.

(** The error loop goes through when the reconstruction has an entry at
    every observed pair. *)
Lemma masked_error_covered R G m c :
  shape G m c ->
  (forall i j, In (i, j) (observed R) -> i < m /\ j < c) ->
  masked_error R G = Ok (masked_total R G).
Proof.
  intros HG Hcov. rewrite masked_error_eq.
  unfold masked_sum, masked_total. apply for_in_total.
  intros a [i j] Hij. destruct (Hcov i j Hij) as [Hi Hj]. simpl.
  rewrite getitem2_ok; [reflexivity | | ].
  - now rewrite (shape_length HG).
  - rewrite (shape_row i HG (row := nth i G [])); [exact Hj|].
    apply nth_error_nth'. now rewrite (shape_length HG).
Qed.

Lemma user_sweep_shape R Q m r k :
  shape R m r -> shape (pinv Q) k r ->
  user_sweep pinv R Q = Ok (map (matvec (pinv Q)) R) /\
  shape (map (matvec (pinv Q)) R) m k.
Proof.
  intros HR HQ. split; [eapply user_sweep_eq; eauto|].
  apply matvec_rows_shape; [apply HQ | apply HR].
Qed.

(** X1: with more users than items, a call of one or more passes raises
    [IndexError] in the item sweep of its first pass, at [ratings_cols[r]],
    and prints nothing. *)
Theorem als_more_users_than_items s lr users items reps R Q m r k :
  nth_error (heap s) lr = Some R -> contents s items = Some Q ->
  shape R m r -> shape (pinv Q) k r -> r < m -> 0 < reps ->
  let run := als_result pinv (Arr lr) users items reps s in
  fst run = Raise IndexError /\ printed s (snd run) = [].
Proof.
  intros Hlr Hitems HR HQ Hrm Hreps run. subst run.
  destruct (als_result_run pinv s lr users items reps R Q Hlr Hitems)
    as [h' ->].
  simpl fst; simpl snd. rewrite printed_app.
  destruct (user_sweep_shape HR HQ) as [Hsweep HP'].
  assert (Hstep : step_fun pinv R Q = Raise IndexError).
  { unfold step_fun. rewrite Hsweep. simpl.
    rewrite (@item_sweep_index_error F SF pinv R _ m r k HR Hrm);
      [reflexivity|].
    apply pinv_shape; [exact HP' | lia]. }
  rewrite (als_fun_first_raise _ _ Hstep Hreps). split; reflexivity.
Qed.

(** X2: with fewer users than items and a rating observed in an item
    column past the number of users, a call of one or more passes raises
    [IndexError] in the error loop of its first pass and prints nothing. *)
Theorem als_unsolved_item_index_error s lr users items reps R Q m r k i j :
  nth_error (heap s) lr = Some R -> contents s items = Some Q ->
  shape R m r -> shape (pinv Q) k r -> 0 < m -> 0 < k ->
  In (i, j) (observed R) -> m <= j -> 0 < reps ->
  let run := als_result pinv (Arr lr) users items reps s in
  fst run = Raise IndexError /\ printed s (snd run) = [].
Proof.
  intros Hlr Hitems HR HQ Hm Hk Hij Hj Hreps run. subst run.
  destruct (als_result_run pinv s lr users items reps R Q Hlr Hitems)
    as [h' ->].
  simpl fst; simpl snd. rewrite printed_app.
  assert (Hmr : m <= r).
  { apply observed_spec in Hij as (Hi & Hjr & _).
    rewrite (shape_row i HR (row := nth i R [])) in Hjr; [lia|].
    apply nth_error_nth'. exact Hi. }
  rewrite (als_fun_first_raise R Q
             (step_index_error pinv_shape Q i HR Hm Hmr Hk HQ Hij Hj) Hreps).
  split; reflexivity.
Qed.

(** X3: with fewer users than items and every observed rating in the
    first [m] item columns, the first pass ends and prints its error; a call
    of one pass returns a users-by-users matrix, and a call of more passes
    raises [ValueError] in the user sweep of the second, having printed that
    one error. *)
Theorem als_fewer_users_than_items s lr users items reps R Q m r k :
  nth_error (heap s) lr = Some R -> contents s items = Some Q ->
  shape R m r -> shape (pinv Q) k r -> 0 < m -> m < r -> 0 < k ->
  (forall i j, In (i, j) (observed R) -> j < m) -> 0 < reps ->
  let run := als_result pinv (Arr lr) users items reps s in
  length (printed s (snd run)) = 1 /\
  (reps = 1 -> exists G, fst run = Ok G /\ shape G m m) /\
  (1 < reps -> fst run = Raise ValueError).
Proof.
  intros Hlr Hitems HR HQ Hm Hmr Hk Hobs Hreps run. subst run.
  destruct (als_result_run pinv s lr users items reps R Q Hlr Hitems)
    as [h' ->].
  simpl fst; simpl snd. rewrite printed_app.
  destruct (step_shapes pinv_shape Q HR Hm (Nat.lt_le_incl _ _ Hmr) Hk HQ)
    as (P' & Q' & G & HP & HQ' & HG & HPs & HQs & HGs).
  assert (Herr : masked_error R G = Ok (masked_total R G)).
  { apply (masked_error_covered R HGs). intros i j Hij. split.
    - apply observed_spec in Hij as (Hi & _).
      now rewrite (shape_length HR) in Hi.
    - now apply (Hobs i j). }
  assert (Hstep : step_fun pinv R Q = Ok (P', Q', masked_total R G)).
  { unfold step_fun. rewrite HP; simpl. rewrite HQ'; simpl.
    rewrite HG; simpl. now rewrite Herr. }
  assert (Hnext : step_fun pinv R Q' = Raise ValueError).
  { unfold step_fun.
    rewrite (@next_user_sweep_value_error F SF pinv R Q' m r k HR Hm);
      [reflexivity | lia | exact Hk | now apply pinv_shape]. }
  unfold als_fun. destruct reps as [|[|n]]; [lia| |].
  - simpl. rewrite Hstep. simpl. rewrite HG. repeat split; try lia.
    intros _. now exists G.
  - simpl. rewrite Hstep, Hnext. simpl. repeat split; try lia.
Qed.

(** *** One error per pass *)

Lemma als_trace_out_length R (n : nat) :
  forall Q last,
    length (fst (als_trace pinv R Q last n)) <= n /\
    forall last', snd (als_trace pinv R Q last n) = Ok last' ->
      length (fst (als_trace pinv R Q last n)) = n /\
      (0 < n -> last' <> None).
Proof.
  induction n as [|n IH]; intros Q last; simpl.
  - split; [lia|]. intros last' _. split; [reflexivity | lia].
  - destruct (step_fun pinv R Q) as [[[P' Q'] err]|e]; simpl.
    + destruct (IH Q' (Some (P', Q'))) as [Hle Heq].
      destruct (als_trace pinv R Q' (Some (P', Q')) n) as [out r] eqn:E.
      simpl in *. split; [lia|].
      intros last' Hr. destruct (Heq last' Hr) as [Hlen Hsome].
      split; [lia|]. intros _.
      destruct n as [|n']; [|apply Hsome; lia].
      simpl in E. injection E as <- <-. injection Hr as <-. discriminate.
    + split; [lia|]. discriminate.
Qed.

(** X4: a call prints one error per completed pass: never more than
    [reps], exactly [reps] when it returns a matrix, and it returns none
    without a pass: with [reps = 0] it raises [UnboundLocalError] and leaves
    the store as it was. *)
Theorem als_prints_one_error_per_pass s lr users items reps R Q :
  nth_error (heap s) lr = Some R -> contents s items = Some Q ->
  let run := als_result pinv (Arr lr) users items reps s in
  length (printed s (snd run)) <= reps /\
  (forall G, fst run = Ok G ->
     0 < reps /\ length (printed s (snd run)) = reps) /\
  (reps = 0 -> run = (Raise UnboundLocalError, s)).
Proof.
  intros Hlr Hitems run. subst run.
  split; [|split].
  - destruct (als_result_run pinv s lr users items reps R Q Hlr Hitems)
      as [h' ->].
    simpl snd. rewrite printed_app. unfold als_fun.
    pose proof (proj1 (als_trace_out_length R reps Q None)) as Hle.
    now destruct (als_trace pinv R Q None reps).
  - destruct (als_result_run pinv s lr users items reps R Q Hlr Hitems)
      as [h' ->].
    simpl fst; simpl snd. rewrite printed_app. unfold als_fun.
    destruct reps as [|n]; [simpl; discriminate|].
    pose proof (proj2 (als_trace_out_length R (S n) Q None)) as Heq.
    destruct (als_trace pinv R Q None (S n)) as [out [last|e]];
      simpl in *; [|discriminate].
    intros G _. split; [lia|]. now apply (Heq last).
  - intros ->. destruct s as [h o]. reflexivity.
Qed.

End Outcomes.

(** ** Ratings without any observation *)

Section ZeroRatings.
Context {F : Type} {SF : Scalar F}.
Variable pinv : mat F -> mat F.
Hypothesis pinv_shape : pinv_shaped pinv.
Hypothesis mul_zero : forall x : F, smul x s0 = s0.
Hypothesis add_zero : sadd (s0 : F) s0 = s0.
Hypothesis zero_is_zero : snz (s0 : F) = false.

Lemma all_zero_repeat n : all_zero (repeat (s0 : F) n).
Proof. apply Forall_forall. intros x Hx. now apply repeat_spec in Hx. Qed.

Lemma matvec_zero (A : mat F) (v : vec F) :
  all_zero v -> matvec A v = repeat s0 (length A).
Proof.
  intros Hv. induction A as [|a A IH]; simpl; [reflexivity|].
  rewrite IH. f_equal. apply dotp_zero; [|exact Hv|exact add_zero].
  apply Forall_forall. intros x _. apply mul_zero.
Qed.

Lemma zeros_shape n c : shape (zeros n c : mat F) n c.
Proof.
  unfold zeros. split; [apply repeat_length|].
  apply Forall_forall. intros row Hrow. apply repeat_spec in Hrow.
  subst row. apply repeat_length.
Qed.

Lemma nth_zeros n c i j : nth j (nth i (zeros n c : mat F) []) s0 = s0.
Proof.
  unfold zeros. destruct (Nat.lt_ge_cases i n) as [Hi|Hi].
  - rewrite (nth_indep _ [] (repeat s0 c)) by now rewrite repeat_length.
    rewrite nth_repeat. destruct (Nat.lt_ge_cases j c) as [Hj|Hj].
    + apply nth_repeat.
    + apply nth_overflow. now rewrite repeat_length.
  - rewrite (nth_overflow _ []) by now rewrite repeat_length.
    now destruct j.
Qed.

Lemma map_matvec_zeros (A : mat F) n c :
  map (matvec A) (zeros n c) = zeros n (length A).
Proof.
  unfold zeros. rewrite map_repeat. f_equal.
  apply matvec_zero, all_zero_repeat.
Qed.

Lemma map_to_repeat {A B : Type} (f : A -> B) (v : B) (l : list A) :
  (forall x, f x = v) -> map f l = repeat v (length l).
Proof.
  intros Hf. induction l as [|x l IH]; simpl; [reflexivity|].
  now rewrite Hf, IH.
Qed.

Lemma transpose_zeros n c : 0 < n -> transpose (zeros n c : mat F) = zeros c n.
Proof.
  intros Hn. unfold transpose, range.
  rewrite (shape_ncols (zeros_shape n c) Hn).
  rewrite map_to_repeat with (v := repeat (s0 : F) n).
  - now rewrite length_seq.
  - intros j. unfold zeros. rewrite map_repeat. f_equal.
    destruct (Nat.lt_ge_cases j c) as [Hj|Hj].
    + now rewrite nth_repeat.
    + apply nth_overflow. now rewrite repeat_length.
Qed.

Lemma observed_zeros n c : observed (zeros n c : mat F) = [].
Proof.
  destruct (observed (zeros n c)) as [|[i j] l] eqn:E; [reflexivity|].
  assert (H : In (i, j) (observed (zeros n c : mat F)))
    by (rewrite E; now left).
  apply observed_spec in H as (_ & _ & H).
  rewrite nth_zeros, zero_is_zero in H. discriminate.
Qed.

Lemma map_zeros {B : Type} (f : vec F -> B) n c :
  map f (zeros n c) = repeat (f (repeat s0 c)) n.
Proof. apply map_repeat. Qed.

Lemma dot_mm_zeros m n k :
  0 < n -> 0 < k ->
  dot_mm (zeros m k : mat F) (transpose (zeros n k)) = Ok (zeros m n).
Proof.
  intros Hn Hk.
  rewrite (dot_mm_transpose (zeros_shape m k) (zeros_shape n k) Hn Hk).
  f_equal. rewrite map_zeros, map_zeros.
  rewrite dotp_zero; [reflexivity | | apply all_zero_repeat | exact add_zero].
  apply Forall_forall. intros x _. apply mul_zero.
Qed.

Lemma step_zero_ratings (Q : mat F) m k :
  0 < m -> 0 < k -> shape (pinv Q) k m ->
  step_fun pinv (zeros m m) Q = Ok (zeros m k, zeros m k, s0).
Proof.
  intros Hm Hk HQ. unfold step_fun.
  rewrite (user_sweep_eq pinv Q (zeros_shape m m) HQ).
  rewrite map_matvec_zeros, (shape_length HQ). simpl.
  assert (HP : shape (pinv (zeros m k)) k m)
    by (apply pinv_shape; [apply zeros_shape | exact Hm]).
  rewrite (item_sweep_eq pinv _ (zeros_shape m m) Hm (Nat.le_refl m) HP).
  rewrite (@transpose_zeros m m Hm).
  rewrite firstn_all2 by (unfold zeros; now rewrite repeat_length).
  rewrite map_matvec_zeros, (shape_length HP). simpl.
  rewrite (@dot_mm_zeros m m k Hm Hk). simpl.
  rewrite (masked_error_shaped (zeros_shape m m) (zeros_shape m m)).
  simpl. unfold masked_total. now rewrite observed_zeros.
Qed.

Lemma als_trace_zero_ratings m k (n : nat) :
  0 < m -> 0 < k ->
  forall Q last,
    shape (pinv Q) k m ->
    als_trace pinv (zeros m m) Q last n
    = (repeat s0 n,
       Ok (match n with
           | 0 => last
           | S _ => Some (zeros m k, zeros m k)
           end)).
Proof.
  intros Hm Hk. induction n as [|n IH]; intros Q last HQ; [reflexivity|].
  simpl. rewrite (@step_zero_ratings Q m k Hm Hk HQ).
  rewrite IH by (apply pinv_shape; [apply zeros_shape | exact Hm]).
  now destruct n.
Qed.

(** X5: when no rating is observed (a square array of zeros), every pass
    prints the error 0 and the call returns the array of zeros: nothing is
    predicted for anyone, whatever the initial item factors.  Stated for a
    scalar arithmetic in which [x * 0 = 0], [0 + 0 = 0] and [0 != 0] is
    false. *)
Theorem als_zero_ratings (s : @store F) lr users items reps (Q : mat F) m k :
  nth_error (heap s) lr = Some (zeros m m) -> contents s items = Some Q ->
  shape (pinv Q) k m -> 0 < m -> 0 < k -> 0 < reps ->
  let run := als_result pinv (Arr lr) users items reps s in
  fst run = Ok (zeros m m) /\ printed s (snd run) = repeat s0 reps.
Proof.
  intros Hlr Hitems HQ Hm Hk Hreps run. subst run.
  destruct (als_result_run pinv s lr users items reps _ Q Hlr Hitems)
    as [h' ->].
  simpl fst; simpl snd. rewrite printed_app. unfold als_fun.
  rewrite (@als_trace_zero_ratings m k reps Hm Hk Q None HQ).
  destruct reps as [|n]; [lia|]. simpl rbind.
  now rewrite (@dot_mm_zeros m m k Hm Hk).
Qed.

End ZeroRatings.

(** ** The array a call returns *)

Section Fresh.
Context {F : Type} {SF : Scalar F}.
Variable pinv : mat F -> mat F.

Lemma dot_returns_new (s : @store F) a b c :
  fst (dot a b s) = Ok c -> c = Arr (length (heap s)).
Proof.
  unfold dot, bind, deref, lift, new_array.
  destruct (contents s a); [|discriminate].
  destruct (contents s b); [|discriminate].
  destruct (dot_mm _ _); simpl; [|discriminate].
  intros H. now injection H.
Qed.

(** X6: the array a call returns is one the call created: it is no array
    of the store the call started from, and no view of one, so writing into
    the result cannot change [ratings], [users] or [items]. *)
Theorem als_returns_a_new_array (s : @store F) ratings users items reps a :
  fst (als pinv ratings users items reps s) = Ok a ->
  exists l, a = Arr l /\ length (heap s) <= l /\
            contents s a = None /\ contents s (T a) = None.
Proof.
  unfold als, bind.
  assert (Hext : extends s
            (snd (for_M (range reps)
                    (fun lv _ => iteration pinv ratings (T ratings) lv)
                    (mkLocals items None None) s)))
    by (apply grows_for_M; intros; apply grows_iteration).
  destruct (for_M _ _ _ s) as [[lv|e] s1]; simpl in *; [|discriminate].
  destruct Hext as (h & o & Hh & _).
  destruct (v_new_users lv) as [nu|]; [|discriminate].
  destruct (v_new_items lv) as [ni|]; [|discriminate].
  intros Ha. apply dot_returns_new in Ha. subst a.
  exists (length (heap s1)). rewrite Hh, length_app.
  assert (Hnone : nth_error (heap s) (length (heap s) + length h) = None)
    by (apply nth_error_None; lia).
  repeat split; [lia | exact Hnone | simpl; now rewrite Hnone].
Qed.

End Fresh.

(** ** The error in exact arithmetic *)

From Stdlib Require Import Lqa.
Import MoreScenarios.
Close Scope Q_scope.

Lemma sq_step (a r g : Q) :
  (sadd a (sq (ssub r g)) == a + (r - g) * (r - g))%Q.
Proof.
  simpl. unfold sq. simpl. unfold qadd, qmul, qsub.
  now rewrite !Qred_correct.
Qed.

(** A sum of squares is not negative, and is zero when every term is. *)
Lemma sum_sq_for_in (R G : qmat) (l : list (nat * nat)) :
  forall a e,
    (0 <= a)%Q ->
    for_in l
      (fun err ij =>
         let? g := getitem2 G (fst ij) (snd ij) in
         Ok (sadd err (sq (ssub (nth (snd ij) (nth (fst ij) R []) s0) g))))
      a = Ok e ->
    (0 <= e)%Q /\
    ((e == 0)%Q <->
     (a == 0)%Q /\
     forall ij, In ij l ->
       exists g, getitem2 G (fst ij) (snd ij) = Ok g /\
                 (g == nth (snd ij) (nth (fst ij) R []) 0)%Q).
Proof.
  induction l as [|ij l IH]; intros a e Ha H; simpl in H.
  - injection H as <-. split; [exact Ha|]. split.
    + intros H0. split; [exact H0 | intros ij []].
    + now intros [H0 _].
  - destruct (getitem2 G (fst ij) (snd ij)) as [g|] eqn:Eg; simpl in H;
      [|discriminate].
    set (r := nth (snd ij) (nth (fst ij) R []) 0%Q) in *.
    pose proof (sq_step a r g) as Hstep.
    assert (Hsq : (0 <= (r - g) * (r - g))%Q)
      by (generalize (r - g)%Q; intros x; nra).
    assert (Ha' : (0 <= sadd a (sq (ssub r g)))%Q) by (rewrite Hstep; lra).
    destruct (IH _ e Ha' H) as [He Hiff].
    split; [exact He|]. rewrite Hiff, Hstep. split.
    + intros [H0 Hall]. split; [nra|].
      intros ij' [<-|Hin]; [|now apply Hall].
      exists g. split; [exact Eg|]. fold r. nra.
    + intros [H0 Hall]. split.
      * destruct (Hall ij (or_introl eq_refl)) as (g' & Hg' & Heq).
        rewrite Eg in Hg'. injection Hg' as <-. fold r in Heq. nra.
      * intros ij' Hin. apply Hall. now right.
Qed.

Lemma masked_error_sign (R G : qmat) (e : Q) :
  masked_error R G = Ok e ->
  (0 <= e)%Q /\
  ((e == 0)%Q <->
   forall i j, In (i, j) (observed R) ->
     exists g, getitem2 G i j = Ok g /\
               (g == nth j (nth i R []) 0)%Q).
Proof.
  rewrite masked_error_eq. unfold masked_sum. intros H.
  destruct (@sum_sq_for_in R G (observed R) 0%Q e (Qle_refl 0) H)
    as [He Hiff].
  split; [exact He|]. rewrite Hiff. split.
  - intros [_ Hall] i j Hij. exact (Hall (i, j) Hij).
  - intros Hall. split; [reflexivity|]. intros [i j] Hij. now apply Hall.
Qed.

(** X7: in exact (rational) arithmetic the error of a reconstruction is
    zero exactly when the reconstruction equals the rating at every observed
    pair, and is positive otherwise; the entries at unobserved pairs play no
    part. *)
Theorem masked_error_zero_iff_fit (R G : qmat) (e : Q) :
  masked_error R G = Ok e ->
  ((e == 0)%Q <->
   forall i j, In (i, j) (observed R) ->
     exists g, getitem2 G i j = Ok g /\
               (g == nth j (nth i R []) 0)%Q) /\
  (~ (e == 0)%Q -> (0 < e)%Q).
Proof.
  intros H. destruct (@masked_error_sign R G e H) as [He Hiff].
  split; [exact Hiff|]. intros Hne.
  apply Qle_lteq in He as [Hlt|Heq]; [exact Hlt|].
  exfalso. apply Hne. now symmetry.
Qed.

Lemma als_trace_out_errors (pinv : qmat -> qmat) (R : qmat) (n : nat) :
  forall Q last,
    Forall (fun e => exists G, masked_error R G = Ok e)
      (fst (als_trace pinv R Q last n)).
Proof.
  induction n as [|n IH]; intros Q last; simpl; [constructor|].
  destruct (step_fun pinv R Q) as [[[P' Q'] err]|e] eqn:Estep; simpl;
    [|constructor].
  specialize (IH Q' (Some (P', Q'))).
  destruct (als_trace pinv R Q' (Some (P', Q')) n) as [out r]. simpl in *.
  constructor; [|exact IH].
  destruct (step_allocs_ok pinv R Q P' Q' err Estep)
    as [_ (G & _ & _ & Herr)].
  now exists G.
Qed.

(** X8: in exact (rational) arithmetic no error that a call prints is
    negative, whether the call returns or raises. *)
Theorem als_prints_no_negative_error (pinv : qmat -> qmat) (s : @store Q)
    lr users items reps (R Q0 : qmat) :
  nth_error (heap s) lr = Some R -> contents s items = Some Q0 ->
  Forall (fun e => (0 <= e)%Q)
    (printed s (snd (als_result pinv (Arr lr) users items reps s))).
Proof.
  intros Hlr Hitems.
  destruct (als_result_run pinv s lr users items reps R Q0 Hlr Hitems)
    as [h' ->].
  simpl snd. rewrite printed_app. unfold als_fun.
  pose proof (als_trace_out_errors pinv R reps Q0 None) as Hall.
  destruct (als_trace pinv R Q0 None reps) as [out r]. simpl in *.
  eapply Forall_impl; [|exact Hall].
  intros e [G HG]. exact (proj1 (@masked_error_sign R G e HG)).
Qed.

(** * The cells around [als] *)

Section OtherCellFacts.
Context {F : Type} {SF : Scalar F}.
Variable pinv : mat F -> mat F.
Hypothesis pinv_shape : pinv_shaped pinv.
Implicit Types (R G P Q : mat F).

Lemma fold_left_ext_in {A B : Type} (f g : A -> B -> A) (l : list B) (a : A) :
  (forall a' x, In x l -> f a' x = g a' x) ->
  fold_left f l a = fold_left g l a.
Proof.
  revert a; induction l as [|x l IH]; intros a Hfg; simpl; [reflexivity|].
  rewrite (Hfg a x (or_introl eq_refl)).
  apply IH. intros; apply Hfg; now right.
Qed.

Lemma fold_left_flat_map {A B C : Type} (f : A -> B -> A) (h : C -> list B)
    (l : list C) (a : A) :
  fold_left f (flat_map h l) a
  = fold_left (fun a x => fold_left f (h x) a) l a.
Proof.
  revert a; induction l as [|x l IH]; intros a; simpl; [reflexivity|].
  now rewrite fold_left_app, IH.
Qed.

Lemma in_all_pairs n c i j : In (i, j) (all_pairs n c) <-> i < n /\ j < c.
Proof.
  unfold all_pairs. rewrite in_flat_map. split.
  - intros [i' [Hi' Hin]]. apply in_map_iff in Hin as [j' [Heq Hj']].
    injection Heq as -> ->. apply in_range in Hi', Hj'. auto.
  - intros [Hi Hj]. exists i. split; [now apply in_range|].
    apply in_map. now apply in_range.
Qed.

(** The sum of an array given entry by entry. *)
Lemma np_sum_entries (f : nat -> nat -> F) n c :
  np_sum (map (fun i => map (fun j => f i j) (range c)) (range n))
  = fold_left (fun acc ij => sadd acc (f (fst ij) (snd ij)))
      (all_pairs n c) s0.
Proof.
  unfold np_sum, all_pairs.
  rewrite fold_left_flat_map, fold_left_mapped.
  apply fold_left_ext_in. intros a i _.
  now rewrite !fold_left_mapped.
Qed.

Lemma bread_in_shape R n c i j :
  shape R n c -> 0 < n -> i < n -> j < c ->
  bread R i j = nth j (nth i R []) s0.
Proof.
  intros HR Hn Hi Hj. unfold bread.
  rewrite (shape_ncols HR Hn), (shape_length HR).
  destruct (Nat.eqb_spec c 1) as [->|_], (Nat.eqb_spec n 1) as [->|_];
    try replace i with 0 by lia; try replace j with 0 by lia; reflexivity.
Qed.

Lemma broadcast_dim_same n : broadcast_dim n n = Some n.
Proof. unfold broadcast_dim. now rewrite Nat.eqb_refl. Qed.

(** The difference of two arrays of one shape, squared and summed. *)
Lemma sum_sq_subtract R G n c :
  shape R n c -> shape G n c -> 0 < n ->
  rmap (fun diff => np_sum (map (map sq) diff)) (subtract R G)
  = Ok (total_sq n c R G).
Proof.
  intros HR HG Hn. unfold subtract.
  rewrite (shape_length HR), (shape_length HG), broadcast_dim_same.
  rewrite (shape_ncols HR Hn), (shape_ncols HG Hn), broadcast_dim_same.
  simpl. f_equal. rewrite map_map.
  rewrite (map_ext _ (fun i => map (fun j => sq (ssub (bread R i j)
                                                    (bread G i j)))
                                 (range c)))
    by (intros i; apply map_map).
  rewrite (np_sum_entries
             (fun i j => sq (ssub (bread R i j) (bread G i j)))).
  unfold total_sq. apply fold_left_ext_in.
  intros a [i j] Hij. apply in_all_pairs in Hij as [Hi Hj]. simpl.
  now rewrite (bread_in_shape HR Hn Hi Hj), (bread_in_shape HG Hn Hi Hj).
Qed.

Lemma shape_eq_same R G n c :
  shape R n c -> shape G n c -> 0 < n -> shape_eq G R = true.
Proof.
  intros HR HG Hn. unfold shape_eq.
  rewrite (shape_length HR), (shape_length HG).
  rewrite (shape_ncols HR Hn), (shape_ncols HG Hn).
  now rewrite !Nat.eqb_refl.
Qed.

Lemma products_shape P Q m n k :
  shape P m k -> shape Q n k -> shape (products P Q) m n.
Proof. apply dot_mm_transpose_shape. Qed.

(** X9: the first reconstruction of cells 41 to 44, from user factors
    m-by-k and item factors r-by-k, has the shape of the m-by-r ratings (the
    test of cell 42 is true), entry (i, j) being the product of row i of
    the users and row j of the items; the error of cell 44 is the sum of the
    squared differences over all m * r pairs, the unobserved ones included,
    each counted as a rating of zero. *)
Theorem first_guess_total_error R P Q m r k :
  shape R m r -> shape P m k -> shape Q r k ->
  0 < m -> 0 < r -> 0 < k ->
  first_guess R P Q
  = Ok (products P Q, true, total_sq m r R (products P Q)) /\
  shape (products P Q) m r.
Proof.
  intros HR HP HQ Hm Hr Hk.
  pose proof (products_shape HP HQ) as HG.
  split; [|exact HG]. unfold first_guess.
  rewrite (dot_mm_transpose HP HQ Hr Hk). fold (products P Q). simpl.
  rewrite (shape_eq_same HR HG Hm).
  pose proof (sum_sq_subtract HR HG Hm) as Hsum.
  destruct (subtract R (products P Q)) as [diff|e]; simpl in *;
    [|discriminate].
  now injection Hsum as ->.
Qed.

(** Item factors with another number of columns than the user factors do
    not multiply. *)
Lemma first_guess_value_error R P Q m r k k' :
  shape P m k -> shape Q r k' -> 0 < m -> 0 < r -> k <> k' ->
  first_guess R P Q = Raise ValueError.
Proof.
  intros HP HQ Hm Hr Hk. unfold first_guess, dot_mm.
  rewrite (shape_length (transpose_shape HQ Hr)).
  destruct HP as [Hlen Hrows].
  destruct P as [|p P]; simpl in *; [lia|].
  inversion Hrows as [|? ? Hp _]; subst.
  destruct (Nat.eqb_spec (length p) k'); [congruence | reflexivity].
Qed.

Lemma filter_flat_map {A B : Type} (p : B -> bool) (g : A -> list B)
    (l : list A) :
  filter p (flat_map g l) = flat_map (fun x => filter p (g x)) l.
Proof.
  induction l as [|x l IH]; simpl; [reflexivity|].
  now rewrite filter_app, IH.
Qed.

Lemma filter_mapped {A B : Type} (p : B -> bool) (g : A -> B) (l : list A) :
  filter p (map g l) = map g (filter (fun x => p (g x)) l).
Proof.
  induction l as [|x l IH]; simpl; [reflexivity|].
  destruct (p (g x)); simpl; now rewrite IH.
Qed.

Lemma flat_map_ext_in {A B : Type} (f g : A -> list B) (l : list A) :
  (forall x, In x l -> f x = g x) -> flat_map f l = flat_map g l.
Proof.
  intros Hfg. induction l as [|x l IH]; simpl; [reflexivity|].
  rewrite (Hfg x (or_introl eq_refl)), IH; [reflexivity|].
  intros; apply Hfg; now right.
Qed.

(** The observed pairs are the pairs of the array with a nonzero rating. *)
Lemma observed_filter R m r :
  shape R m r ->
  observed R
  = filter (fun ij => snz (nth (snd ij) (nth (fst ij) R []) s0))
      (all_pairs m r).
Proof.
  intros HR. unfold observed, all_pairs.
  rewrite (shape_length HR), filter_flat_map.
  apply flat_map_ext_in. intros i Hi. apply in_range in Hi.
  rewrite filter_mapped. simpl.
  rewrite (shape_row i HR (row := nth i R [])); [reflexivity|].
  apply nth_error_nth'. now rewrite (shape_length HR).
Qed.

Lemma filter_all {A : Type} (p : A -> bool) (l : list A) :
  (forall x, In x l -> p x = true) -> filter p l = l.
Proof.
  intros Hp. induction l as [|x l IH]; simpl; [reflexivity|].
  rewrite (Hp x (or_introl eq_refl)), IH; [reflexivity|].
  intros; apply Hp; now right.
Qed.

(** X10: when every rating is observed (no entry is zero), the error of
    cell 44 for a reconstruction is the error that the loop of [als]
    computes for it: the two differ only through the unobserved pairs. *)
Theorem total_error_is_masked_error_when_all_observed R G m r :
  shape R m r -> shape G m r -> 0 < m ->
  (forall i j, i < m -> j < r -> snz (nth j (nth i R []) s0) = true) ->
  rmap (fun diff => np_sum (map (map sq) diff)) (subtract R G)
  = masked_error R G.
Proof.
  intros HR HG Hm Hall.
  rewrite (sum_sq_subtract HR HG Hm), (masked_error_shaped HR HG).
  f_equal. unfold total_sq, masked_total.
  rewrite (observed_filter HR), filter_all; [reflexivity|].
  intros [i j] Hij. apply in_all_pairs in Hij as [Hi Hj]. now apply Hall.
Qed.

(** ** The two-user example *)

Lemma dot_vm_transpose (v : vec F) Q r k :
  shape Q r k -> 0 < r -> 0 < k -> length v = k ->
  dot_vm v (transpose Q) = Ok (map (fun q => dotp v q) Q).
Proof.
  intros HQ Hr Hk Hv. unfold dot_vm.
  rewrite (shape_length (transpose_shape HQ Hr)), Hv, Nat.eqb_refl.
  now rewrite (transpose_involutive HQ Hr Hk).
Qed.

(** X11: the two-user example of cells 31 to 35, on ratings rows of [r]
    entries and item factors r-by-k, goes through: its two preference rows
    are the user factors that the first user sweep of [als] computes from
    the same arrays, its reconstruction multiplies them with the item
    factors it was given and has the shape (2, r) of the ratings, and its
    error is the masked error of that reconstruction. *)
Theorem two_user_example_is_half_a_pass (brian erin : vec F) Q r k :
  length brian = r -> length erin = r -> shape Q r k -> 0 < r -> 0 < k ->
  exists prefs guess err,
    two_user_example pinv brian erin Q = Ok (prefs, guess, err) /\
    user_sweep pinv [brian; erin] Q = Ok prefs /\
    guess = products prefs Q /\ shape guess 2 r /\
    masked_error [brian; erin] guess = Ok err /\
    err = masked_total [brian; erin] guess.
Proof.
  intros Hb He HQ Hr Hk.
  assert (HR : shape [brian; erin] 2 r) by (split; [reflexivity|]; auto).
  pose proof (pinv_shape HQ Hr) as HpQ.
  destruct (user_sweep_shape pinv Q HR HpQ) as [Hsweep HP].
  simpl map in Hsweep, HP.
  pose proof (products_shape HP HQ) as HG.
  set (prefs := [matvec (pinv Q) brian; matvec (pinv Q) erin]) in *.
  exists prefs, (products prefs Q),
    (masked_total [brian; erin] (products prefs Q)).
  split; [|repeat split; try apply HG; try exact Hsweep;
           apply (masked_error_shaped HR HG) ].
  unfold two_user_example.
  rewrite (dot_mv_shape brian HpQ Hb), (dot_mv_shape erin HpQ He). simpl.
  fold (matvec (pinv Q) brian). fold (matvec (pinv Q) erin).
  rewrite !(dot_vm_transpose _ HQ Hr Hk)
    by (unfold matvec; rewrite length_map; apply HpQ).
  simpl rbind. unfold vstack. simpl ncols. simpl forallb.
  rewrite !length_map, !Nat.eqb_refl. simpl andb. cbv iota. simpl rbind.
  change ((let? err := masked_error [brian; erin] (products prefs Q) in
           Ok (prefs, products prefs Q, err))
          = Ok (prefs, products prefs Q,
                masked_total [brian; erin] (products prefs Q))).
  now rewrite (masked_error_shaped HR HG).
Qed.

End OtherCellFacts.

(** ** The two errors in exact arithmetic *)

Lemma fold_sadd_qsum {A : Type} (f : A -> Q) (l : list A) :
  forall a, (fold_left (fun a x => sadd a (f x)) l a == a + qsum f l)%Q.
Proof.
  induction l as [|x l IH]; intros a; simpl.
  - lra.
  - rewrite IH. unfold qadd. rewrite Qred_correct. lra.
Qed.

Lemma qsum_split {A : Type} (p : A -> bool) (f : A -> Q) (l : list A) :
  (qsum f l
   == qsum f (filter p l) + qsum f (filter (fun x => negb (p x)) l))%Q.
Proof.
  induction l as [|x l IH]; simpl; [lra|].
  destruct (p x); simpl; lra.
Qed.

Lemma qsum_ext_in {A : Type} (f g : A -> Q) (l : list A) :
  (forall x, In x l -> (f x == g x)%Q) -> (qsum f l == qsum g l)%Q.
Proof.
  intros Hfg. induction l as [|x l IH]; simpl; [lra|].
  rewrite (Hfg x (or_introl eq_refl)), IH; [lra|].
  intros; apply Hfg; now right.
Qed.

Lemma sq_of_unobserved (r g : Q) :
  negb (snz r) = true -> (sq (ssub r g) == sq g)%Q.
Proof.
  simpl. unfold qnz. rewrite negb_involutive. intros Hr.
  apply Qeq_bool_iff in Hr. unfold sq. simpl. unfold qmul, qsub.
  rewrite !Qred_correct, Hr. ring.
Qed.

(** The sums behind the two errors. *)
Lemma total_sq_split (R G : qmat) m r :
  shape R m r ->
  (total_sq m r R G == masked_total R G + unobserved_sq m r R G)%Q /\
  (masked_total R G <= total_sq m r R G)%Q.
Proof.
  intros HR.
  set (f := fun ij : nat * nat =>
              sq (ssub (nth (snd ij) (nth (fst ij) R []) s0)
                       (nth (snd ij) (nth (fst ij) G []) s0))).
  set (g := fun ij : nat * nat => sq (nth (snd ij) (nth (fst ij) G []) s0)).
  set (p := fun ij : nat * nat =>
              snz (nth (snd ij) (nth (fst ij) R []) s0)).
  assert (Htotal : (total_sq m r R G == qsum f (all_pairs m r))%Q).
  { unfold total_sq.
    change (fold_left (fun a x => sadd a (f x)) (all_pairs m r) 0
            == qsum f (all_pairs m r))%Q.
    rewrite fold_sadd_qsum. lra. }
  assert (Hmasked : (masked_total R G == qsum f (filter p (all_pairs m r)))%Q).
  { unfold masked_total. rewrite (observed_filter HR).
    change (fold_left (fun a x => sadd a (f x)) (filter p (all_pairs m r)) 0
            == qsum f (filter p (all_pairs m r)))%Q.
    rewrite fold_sadd_qsum. lra. }
  assert (Hrest : (unobserved_sq m r R G
                   == qsum f (filter (fun x => negb (p x))
                                (all_pairs m r)))%Q).
  { unfold unobserved_sq.
    change (fold_left (fun a x => sadd a (g x))
              (filter (fun x => negb (p x)) (all_pairs m r)) 0
            == qsum f (filter (fun x => negb (p x)) (all_pairs m r)))%Q.
    rewrite fold_sadd_qsum, (qsum_ext_in f g); [lra|].
    intros ij Hij. apply filter_In in Hij as [_ Hij].
    now apply sq_of_unobserved. }
  assert (Hpos : (0 <= unobserved_sq m r R G)%Q).
  { unfold unobserved_sq.
    change (0 <= fold_left (fun a x => sadd a (g x))
                   (filter (fun x => negb (p x)) (all_pairs m r)) 0)%Q.
    rewrite fold_sadd_qsum.
    generalize (filter (fun x => negb (p x)) (all_pairs m r)).
    intros l. induction l as [|x l IH]; simpl; [lra|].
    assert (0 <= g x)%Q; [|lra].
    unfold g, sq. simpl. unfold qmul. rewrite Qred_correct.
    generalize (nth (snd x) (nth (fst x) G []) 0%Q). intros y. nra. }
  rewrite Htotal, Hmasked, Hrest in *.
  split; [apply (qsum_split p) | rewrite (qsum_split p f (all_pairs m r)); lra].
Qed.

(** X12: in exact (rational) arithmetic, for ratings and a reconstruction
    of one shape, the error of cell 44, [np.sum((ratings - guess)**2)], is
    the error that the loop of [als] computes for the same reconstruction
    plus the sum of the squared predictions at the unobserved pairs, and so
    is never the smaller of the two: summing over all pairs counts every
    missing rating as a rating of zero. *)
Theorem total_error_exceeds_masked_error (R G : qmat) m r :
  shape R m r -> shape G m r -> 0 < m ->
  exists total masked : Q,
    rmap (fun diff => np_sum (map (map sq) diff)) (subtract R G) = Ok total /\
    masked_error R G = Ok masked /\
    (total == masked + unobserved_sq m r R G)%Q /\
    (masked <= total)%Q.
Proof.
  intros HR HG Hm.
  exists (total_sq m r R G), (masked_total R G).
  split; [exact (sum_sq_subtract HR HG Hm)|].
  split; [exact (masked_error_shaped HR HG)|].
  exact (total_sq_split G HR).
Qed.

(** * The cells that draw the arrays *)

Import Cells.

Section DrawnArrays.
Variable rng : Type.
Variable seed : Z -> rng.
Variable gauss : Q -> Q -> rng -> Q * rng.
Variable uniform : Q -> Q -> rng -> Q * rng.

Lemma gauss_row_length k :
  forall row g, length (fst (gauss_row gauss k row g)) = length row + k.
Proof.
  induction k as [|k IH]; intros row g; simpl; [lia|].
  destruct (gauss _ _ g) as [x g']. rewrite IH, length_app. simpl. lia.
Qed.

Lemma gauss_rows_app n k :
  forall rows g,
    gauss_rows gauss n k rows g
    = (rows ++ fst (gauss_rows gauss n k [] g),
       snd (gauss_rows gauss n k [] g)).
Proof.
  induction n as [|n IH]; intros rows g; simpl.
  - now rewrite app_nil_r.
  - destruct (gauss_row gauss k [] g) as [row g'].
    rewrite (IH (rows ++ [row])), (IH [row]). simpl.
    now rewrite <- app_assoc.
Qed.

Lemma gauss_rows_shape n k :
  forall g, shape (fst (gauss_rows gauss n k [] g)) n k.
Proof.
  induction n as [|n IH]; intros g; simpl.
  - split; [reflexivity | constructor].
  - pose proof (gauss_row_length k [] g) as Hrow.
    destruct (gauss_row gauss k [] g) as [row g'].
    rewrite gauss_rows_app. simpl in *.
    destruct (IH g') as [Hlen Hrows].
    split; [simpl; now rewrite Hlen | constructor; auto].
Qed.

Lemma gauss_rows_add n n' k :
  forall rows g,
    gauss_rows gauss (n + n') k rows g
    = gauss_rows gauss n' k (fst (gauss_rows gauss n k rows g))
        (snd (gauss_rows gauss n k rows g)).
Proof.
  induction n as [|n IH]; intros rows g; simpl; [reflexivity|].
  destruct (gauss_row gauss k [] g) as [row g']. apply IH.
Qed.

(** Drawing more rows from the same state only appends rows. *)
Lemma gauss_rows_prefix n n' k g :
  fst (gauss_rows gauss n k [] g)
  = firstn n (fst (gauss_rows gauss (n + n') k [] g)).
Proof.
  rewrite gauss_rows_add.
  pose proof (gauss_rows_shape n k g) as [Hlen _].
  destruct (gauss_rows gauss n k [] g) as [users g'].
  cbn [fst snd] in *. rewrite (gauss_rows_app n' k users g'). cbn [fst].
  rewrite firstn_app, Hlen, Nat.sub_diag, firstn_O, app_nil_r.
  symmetry. apply firstn_all2. now rewrite Hlen.
Qed.

(** X13: cells 26 and 27 both start with [seed(100)] and draw the same
    numbers: the two rows of the user factors [users_arr] are the first two
    of the five rows of the item factors [items_arr], whatever the
    generator. *)
Theorem users_arr_repeats_items_arr :
  fst (cell_26 seed gauss) = firstn 2 (fst (cell_27 seed gauss)) /\
  shape (fst (cell_26 seed gauss)) 2 10 /\
  shape (fst (cell_27 seed gauss)) 5 10.
Proof.
  unfold cell_26, cell_27. split; [|split; apply gauss_rows_shape].
  exact (gauss_rows_prefix 2 3 10 (seed 100)).
Qed.

(** ** The ratings of cell 38 *)

Lemma list_setitem_split l i v l' :
  list_setitem l i v = Ok l' ->
  exists A y B, l = A ++ y :: B /\ l' = A ++ v :: B.
Proof.
  unfold list_setitem.
  set (i' := if (i <? 0)%Z then (i + Z.of_nat (length l))%Z else i).
  destruct ((0 <=? i')%Z && (i' <? Z.of_nat (length l))%Z) eqn:E;
    [|discriminate].
  apply andb_true_iff in E as [E1 E2].
  apply Z.leb_le in E1. apply Z.ltb_lt in E2.
  intros H. injection H as <-.
  destruct (nth_error l (Z.to_nat i')) as [y|] eqn:Ey.
  - exists (firstn (Z.to_nat i') l), y, (skipn (S (Z.to_nat i')) l).
    split; [|reflexivity]. symmetry. now apply firstn_skipn_middle.
  - apply nth_error_None in Ey. lia.
Qed.

Lemma list_setitem_raises l i v e :
  list_setitem l i v = Raise e -> e = IndexError.
Proof.
  unfold list_setitem. destruct (_ && _); [discriminate|].
  intros H. now injection H.
Qed.

Lemma list_setitem_in_range l i v :
  (0 <= i < Z.of_nat (length l))%Z -> exists l', list_setitem l i v = Ok l'.
Proof.
  intros [H0 Hn]. unfold list_setitem.
  destruct (Z.ltb_spec i 0) as [|_]; [lia|].
  destruct (Z.leb_spec 0 i) as [_|]; [|lia].
  destruct (Z.ltb_spec i (Z.of_nat (length l))) as [_|]; [|lia].
  simpl. eauto.
Qed.

Lemma int_of_lower (x : Q) (a : Z) :
  (inject_Z a <= x)%Q -> (a <= int_of x)%Z.
Proof.
  unfold Qle, int_of. destruct x as [n d]. simpl. intros H.
  apply Z.quot_le_lower_bound; lia.
Qed.

Lemma int_of_upper (x : Q) (b : Z) :
  (x <= inject_Z b)%Q -> (int_of x <= b)%Z.
Proof.
  unfold Qle, int_of. destruct x as [n d]. simpl. intros H.
  apply Z.quot_le_upper_bound; lia.
Qed.

Lemma int_of_below (x : Q) (b : Z) :
  (0 <= x)%Q -> (x < inject_Z b)%Q -> (int_of x < b)%Z.
Proof.
  unfold Qle, Qlt, int_of. destruct x as [n d]. simpl. intros H0 H.
  apply Z.quot_lt_upper_bound; lia.
Qed.

(** What one pass of the inner loop does to the row, the generator apart:
    it appends a zero or a drawn rating, and when the row then counts ten
    zeros it assigns a drawn rating at a drawn index. *)
Lemma rate_cases user g :
  exists x,
    (x = 0%Z \/ exists g1, x = int_of (fst (uniform 1 6 g1))) /\
    ((count_occ Z.eq_dec (user ++ [x]) 0%Z <> 10 /\
      fst (rate gauss uniform user g) = Ok (user ++ [x])) \/
     (count_occ Z.eq_dec (user ++ [x]) 0%Z = 10 /\
      exists g1 g2,
        fst (rate gauss uniform user g)
        = list_setitem (user ++ [x]) (int_of (fst (uniform 0 10 g2)))
            (int_of (fst (uniform 1 6 g1))))).
Proof.
  unfold rate. destruct (gauss _ _ g) as [chance g0].
  destruct (negb (Qle_bool chance (1 # 2))).
  - destruct (uniform 1 6 g0) as [x g1] eqn:Ex.
    exists (int_of x). split.
    + right. exists g0. now rewrite Ex.
    + destruct (Nat.eqb_spec (count_occ Z.eq_dec (user ++ [int_of x]) 0%Z) 10)
        as [Hc|Hc]; [right | left; now split].
      split; [exact Hc|].
      destruct (uniform 1 6 g1) as [v g2] eqn:Ev.
      destruct (uniform 0 10 g2) as [u g3] eqn:Eu.
      exists g1, g2. now rewrite Ev, Eu.
  - exists 0%Z. split; [now left|].
    destruct (Nat.eqb_spec (count_occ Z.eq_dec (user ++ [0%Z]) 0%Z) 10)
      as [Hc|Hc]; [right | left; now split].
    split; [exact Hc|].
    destruct (uniform 1 6 g0) as [v g2] eqn:Ev.
    destruct (uniform 0 10 g2) as [u g3] eqn:Eu.
    exists g0, g2. now rewrite Ev, Eu.
Qed.

Lemma rate_length user g user' :
  fst (rate gauss uniform user g) = Ok user' ->
  length user' = S (length user).
Proof.
  destruct (rate_cases user g) as (x & _ & [[_ ->]|[_ (g1 & g2 & ->)]]).
  - intros H. injection H as <-. rewrite length_app. simpl. lia.
  - intros H. apply list_setitem_split in H as (A & y & B & Hl & ->).
    apply (f_equal (@length Z)) in Hl.
    rewrite !length_app in *. simpl in *. lia.
Qed.

Lemma rate_raises user g e :
  fst (rate gauss uniform user g) = Raise e -> e = IndexError.
Proof.
  destruct (rate_cases user g) as (x & _ & [[_ ->]|[_ (g1 & g2 & ->)]]).
  - discriminate.
  - apply list_setitem_raises.
Qed.

(** A property of the row that every pass of the inner loop keeps holds of
    the finished row. *)
Lemma rate_row_keeps (I : list Z -> Prop) k :
  (forall user g user',
     I user -> fst (rate gauss uniform user g) = Ok user' -> I user') ->
  forall user g user',
    I user -> fst (rate_row gauss uniform k user g) = Ok user' -> I user'.
Proof.
  intros Hstep. induction k as [|k IH]; intros user g user' HI; simpl.
  - intros H. now injection H as <-.
  - pose proof (Hstep user g) as Hs.
    destruct (rate gauss uniform user g) as [[user1|e] g1]; simpl in *;
      [|discriminate].
    apply IH. now apply Hs.
Qed.

Lemma rate_row_length k :
  forall user g user',
    fst (rate_row gauss uniform k user g) = Ok user' ->
    length user' = length user + k.
Proof.
  induction k as [|k IH]; intros user g user'; simpl.
  - intros H. injection H as <-. lia.
  - pose proof (rate_length user g) as Hs.
    destruct (rate gauss uniform user g) as [[user1|e] g1]; simpl in *;
      [|discriminate].
    intros H. apply IH in H. rewrite H, (Hs user1 eq_refl). lia.
Qed.

Lemma rate_row_raises k :
  forall user g e,
    fst (rate_row gauss uniform k user g) = Raise e -> e = IndexError.
Proof.
  induction k as [|k IH]; intros user g e; simpl; [discriminate|].
  pose proof (rate_raises user g) as Hs.
  destruct (rate gauss uniform user g) as [[user1|e1] g1]; simpl in *.
  - apply IH.
  - intros H. injection H as <-. now apply Hs.
Qed.

Lemma rate_rows_keeps (J : list Z -> Prop) n k :
  (forall g user', fst (rate_row gauss uniform k [] g) = Ok user' -> J user') ->
  forall rows g rows',
    Forall J rows -> fst (rate_rows gauss uniform n k rows g) = Ok rows' ->
    Forall J rows' /\ length rows' = length rows + n.
Proof.
  intros Hrow. induction n as [|n IH]; intros rows g rows' HJ; simpl.
  - intros H. injection H as <-. split; [exact HJ | lia].
  - pose proof (Hrow g) as Hr.
    destruct (rate_row gauss uniform k [] g) as [[user|e] g1]; simpl in *;
      [|discriminate].
    intros H. apply IH in H as [HJ' Hlen].
    + split; [exact HJ'|]. rewrite Hlen, length_app. simpl. lia.
    + apply Forall_app. split; [exact HJ|]. constructor; auto.
Qed.

Lemma rate_rows_raises n k :
  forall rows g e,
    fst (rate_rows gauss uniform n k rows g) = Raise e -> e = IndexError.
Proof.
  induction n as [|n IH]; intros rows g e; simpl; [discriminate|].
  pose proof (rate_row_raises k [] g) as Hr.
  destruct (rate_row gauss uniform k [] g) as [[user|e1] g1]; simpl in *.
  - apply IH.
  - intros H. injection H as <-. now apply Hr.
Qed.

(** X14: cell 38 either builds a list of a hundred rows of a hundred
    ratings each, or stops with [IndexError], raised by the assignment
    [user[int(uni(0, 10))] = ...] and by nothing else. *)
Theorem ratings2_shape_or_index_error :
  match fst (cell_38 seed gauss uniform) with
  | Ok rows => @shape Z rows 100 100
  | Raise e => e = IndexError
  end.
Proof.
  unfold cell_38.
  pose proof (@rate_rows_keeps (fun row => length row = 100) 100 100
                (fun g user' H => rate_row_length 100 [] g H) [] (seed 42))
    as Hok.
  pose proof (rate_rows_raises 100 100 [] (seed 42)) as Hraise.
  destruct (fst (rate_rows gauss uniform 100 100 [] (seed 42)))
    as [rows|e].
  - destruct (Hok rows (Forall_nil _) eq_refl) as [Hrows Hlen].
    split; [exact Hlen | exact Hrows].
  - now apply Hraise.
Qed.

Lemma has_rating_count (l : list Z) (v : Z) :
  In v l -> v <> 0%Z -> count_occ Z.eq_dec l 0%Z < length l.
Proof.
  intros Hin Hv. apply in_split in Hin as (A & B & ->).
  rewrite count_occ_app, length_app. simpl.
  destruct (Z.eq_dec v 0) as [|_]; [contradiction|].
  pose proof (count_occ_bound Z.eq_dec 0%Z A).
  pose proof (count_occ_bound Z.eq_dec 0%Z B). lia.
Qed.

Lemma count_has_rating (l : list Z) :
  count_occ Z.eq_dec l 0%Z < length l -> exists x, In x l /\ x <> 0%Z.
Proof.
  induction l as [|y l IH]; simpl; [lia|].
  destruct (Z.eq_dec y 0) as [->|Hy]; intros H.
  - destruct IH as (x & Hx & Hx0); [lia|]. exists x. auto.
  - exists y. auto.
Qed.

Section RatingsInRange.
Hypothesis uniform_1_6 :
  forall g, (1 <= fst (uniform 1 6 g))%Q /\ (fst (uniform 1 6 g) <= 6)%Q.

Lemma drawn_rating g : (1 <= int_of (fst (uniform 1 6 g)) <= 6)%Z.
Proof.
  destruct (uniform_1_6 g) as [H1 H6].
  split; [now apply int_of_lower | now apply int_of_upper].
Qed.

Lemma rate_keeps_range user g user' :
  Forall (fun x => (0 <= x <= 6)%Z) user ->
  fst (rate gauss uniform user g) = Ok user' ->
  Forall (fun x => (0 <= x <= 6)%Z) user'.
Proof.
  intros Huser.
  destruct (rate_cases user g) as (x & Hx & Hcases).
  assert (Hx' : (0 <= x <= 6)%Z).
  { destruct Hx as [->|[g1 ->]]; [lia|].
    pose proof (drawn_rating g1). lia. }
  assert (Huser1 : Forall (fun x => (0 <= x <= 6)%Z) (user ++ [x])).
  { apply Forall_app. split; [exact Huser|]. now constructor. }
  destruct Hcases as [[_ ->]|[_ (g1 & g2 & ->)]].
  - intros H. now injection H as <-.
  - intros H. apply list_setitem_split in H as (A & y & B & Hl & ->).
    rewrite Hl in Huser1. apply Forall_app in Huser1 as [HA HB].
    apply Forall_app. split; [exact HA|].
    inversion HB; subst. constructor; [|assumption].
    pose proof (drawn_rating g1). lia.
Qed.

(** The row has fewer than ten zeros, or it has a rating. *)
Lemma rate_keeps_a_rating user g user' :
  count_occ Z.eq_dec user 0%Z < 10 \/
  count_occ Z.eq_dec user 0%Z < length user ->
  fst (rate gauss uniform user g) = Ok user' ->
  count_occ Z.eq_dec user' 0%Z < 10 \/
  count_occ Z.eq_dec user' 0%Z < length user'.
Proof.
  intros Huser.
  destruct (rate_cases user g) as (x & _ & [[Hc ->]|[_ (g1 & g2 & ->)]]).
  - intros H. injection H as <-.
    rewrite count_occ_app, length_app in *. simpl in *.
    destruct (Z.eq_dec x 0); lia.
  - intros H. apply list_setitem_split in H as (A & y & B & _ & ->).
    right. apply (@has_rating_count _ (int_of (fst (uniform 1 6 g1)))).
    + apply in_or_app. right. now left.
    + pose proof (drawn_rating g1). lia.
Qed.

(** X15: when [uni(1, 6)] returns numbers from 1 to 6, every row that
    cell 38 builds holds integers from 0 to 6, and at least one of them is a
    rating (not zero): no user of [ratings2] is without an observed
    rating. *)
Theorem ratings2_every_user_rates (rows : list (list Z)) :
  fst (cell_38 seed gauss uniform) = Ok rows ->
  Forall
    (fun row =>
       Forall (fun x => (0 <= x <= 6)%Z) row /\
       exists x, In x row /\ (1 <= x)%Z)
    rows.
Proof.
  unfold cell_38. intros H.
  refine (proj1 (@rate_rows_keeps _ 100 100 _ [] (seed 42) rows
                   (Forall_nil _) H)).
  intros g user' Hrow. split.
  - exact (@rate_row_keeps _ 100 rate_keeps_range [] g user'
             (Forall_nil _) Hrow).
  - pose proof (@rate_row_keeps _ 100 rate_keeps_a_rating [] g user'
                  (or_introl (Nat.lt_0_succ 9)) Hrow) as Hcount.
    pose proof (@rate_row_keeps _ 100 rate_keeps_range [] g user'
                  (Forall_nil _) Hrow) as Hrange.
    apply rate_row_length in Hrow. cbn [length Nat.add] in Hrow.
    cbv beta in Hcount, Hrange.
    destruct (@count_has_rating user') as (x & Hx & Hx0); [lia|].
    exists x. split; [exact Hx|].
    rewrite Forall_forall in Hrange. specialize (Hrange x Hx). lia.
Qed.

End RatingsInRange.

Section IndexInRange.
Hypothesis uniform_0_10 :
  forall g, (0 <= fst (uniform 0 10 g))%Q /\ (fst (uniform 0 10 g) < 10)%Q.

Lemma rate_returns user g :
  exists user', fst (rate gauss uniform user g) = Ok user'.
Proof.
  destruct (rate_cases user g) as (x & _ & [[_ ->]|[Hc (g1 & g2 & ->)]]).
  - eauto.
  - apply list_setitem_in_range.
    destruct (uniform_0_10 g2) as [H0 H10].
    pose proof (@int_of_lower _ 0 H0).
    pose proof (@int_of_below _ 10 H0 H10).
    pose proof (count_occ_bound Z.eq_dec 0%Z (user ++ [x])). lia.
Qed.

Lemma rate_row_returns k :
  forall user g, exists user', fst (rate_row gauss uniform k user g) = Ok user'.
Proof.
  induction k as [|k IH]; intros user g; simpl; [eauto|].
  destruct (rate_returns user g) as [user1 H1].
  destruct (rate gauss uniform user g) as [[u|e] g1]; simpl in *;
    [apply IH | discriminate].
Qed.

Lemma rate_rows_returns n k :
  forall rows g,
    exists rows', fst (rate_rows gauss uniform n k rows g) = Ok rows'.
Proof.
  induction n as [|n IH]; intros rows g; simpl; [eauto|].
  destruct (rate_row_returns k [] g) as [user H1].
  destruct (rate_row gauss uniform k [] g) as [[u|e] g1]; simpl in *;
    [apply IH | discriminate].
Qed.

Lemma cell_38_returns :
  exists rows g,
    cell_38 seed gauss uniform = (Ok rows, g) /\ @shape Z rows 100 100.
Proof.
  unfold cell_38.
  destruct (rate_rows_returns 100 100 [] (seed 42)) as [rows Hrows].
  pose proof (@rate_rows_keeps (fun row => length row = 100) 100 100
                (fun g user' H => rate_row_length 100 [] g H) [] (seed 42)
                rows (Forall_nil _) Hrows) as [Hall Hlen].
  destruct (rate_rows gauss uniform 100 100 [] (seed 42)) as [r g].
  simpl in Hrows. subst r. exists rows, g. split; [reflexivity|].
  split; [exact Hlen | exact Hall].
Qed.

(** X16: when [uni(0, 10)] returns numbers from 0 up to, not including,
    10, cell 38 raises nothing and [ratings2] has a hundred rows of a
    hundred ratings: the assignment is only made to a row of ten entries or
    more, at an index from 0 to 9. *)
Theorem ratings2_is_built :
  exists rows,
    fst (cell_38 seed gauss uniform) = Ok rows /\ @shape Z rows 100 100.
Proof.
  destruct cell_38_returns as (rows & g & -> & Hshape). now exists rows.
Qed.

Lemma int_array_shape (rows : list (list Z)) n c :
  @shape Z rows n c -> shape (int_array rows) n c.
Proof.
  intros [Hlen Hrows]. unfold int_array. split; [now rewrite length_map|].
  apply Forall_forall. intros row Hrow.
  apply in_map_iff in Hrow as (row0 & <- & Hin).
  rewrite length_map. rewrite Forall_forall in Hrows. now apply Hrows.
Qed.

(** X17: cells 38 to 46 in order, with a generator as above and a
    pseudo-inverse of the right shapes: the call of [als] on the generated
    arrays returns (the ratings are square, a hundred by a hundred), prints
    ten errors, none of them negative in exact arithmetic, and the slice
    [[:5, :]] that the cell shows has shape (5, 100). *)
Theorem notebook_als_call_returns (pinv : qmat -> qmat) :
  pinv_shaped pinv ->
  exists G,
    fst (cells_38_to_46 seed gauss uniform pinv) = Ok G /\
    shape G 5 100 /\
    length (snd (cells_38_to_46 seed gauss uniform pinv)) = 10 /\
    Forall (fun e => (0 <= e)%Q) (snd (cells_38_to_46 seed gauss uniform pinv)).
Proof.
  intros Hpinv. unfold cells_38_to_46.
  destruct cell_38_returns as (rows & g & -> & Hrows).
  apply int_array_shape in Hrows.
  pose proof (gauss_rows_shape 100 10 g) as HU.
  destruct (gauss_rows gauss 100 10 [] g) as [U g1]. simpl in HU.
  pose proof (gauss_rows_shape 100 10 g1) as HQ.
  destruct (gauss_rows gauss 100 10 [] g1) as [Q0 g2]. simpl in HQ.
  set (s := mkStore [int_array rows; U; Q0] []).
  destruct (@als_result_run Q _ pinv s 0 (Arr 1) (Arr 2) 10 (int_array rows)
              Q0 eq_refl eq_refl) as [h' ->].
  unfold als_fun.
  pose proof (als_trace_out_errors pinv (int_array rows) 10 Q0 None) as Herrs.
  destruct (@als_trace_square Q _ pinv Hpinv (int_array rows) 100 10 10
              Hrows ltac:(lia) ltac:(lia) Q0 None
              (Hpinv Q0 100 10 HQ ltac:(lia)) (Nat.lt_0_succ 9))
    as (out & P & Qn & Htr & Hlen & HPs & HQs).
  rewrite Htr in *. cbn [fst snd rbind stdout app] in Herrs |- *.
  rewrite (dot_mm_transpose HPs HQs) by lia.
  cbn [fst snd rmap]. subst s. cbn [stdout app].
  eexists. split; [reflexivity|]. split; [|split; [exact Hlen|]].
  - pose proof (dot_mm_transpose_shape HPs HQs) as [HGlen HGrows].
    split.
    + rewrite length_firstn, HGlen. reflexivity.
    + apply Forall_forall. intros row Hrow.
      rewrite Forall_forall in HGrows. apply HGrows.
      rewrite <- (firstn_skipn 5). apply in_or_app. now left.
  - eapply Forall_impl; [|exact Herrs].
    intros e [G HG]. exact (proj1 (@masked_error_sign _ G e HG)).
Qed.

End IndexInRange.

End DrawnArrays.

(** * Instances of the further statements *)

Lemma lcg_uniform_1_6 (g : Z) :
  (1 <= fst (lcg_uniform 1 6 g))%Q /\ (fst (lcg_uniform 1 6 g) <= 6)%Q.
Proof.
  unfold lcg_uniform. cbn [fst].
  pose proof (Z.mod_pos_bound (lcg_next g) 1000 eq_refl) as Hx.
  set (x := (lcg_next g mod 1000)%Z) in *. clearbody x.
  unfold Qle. cbn -[Z.mul Z.add Z.opp Pos.mul]. lia.
Qed.

Lemma lcg_uniform_0_10 (g : Z) :
  (0 <= fst (lcg_uniform 0 10 g))%Q /\ (fst (lcg_uniform 0 10 g) < 10)%Q.
Proof.
  unfold lcg_uniform. cbn [fst].
  pose proof (Z.mod_pos_bound (lcg_next g) 1000 eq_refl) as Hx.
  set (x := (lcg_next g mod 1000)%Z) in *. clearbody x.
  unfold Qle, Qlt. cbn -[Z.mul Z.add Z.opp Pos.mul]. lia.
Qed.

Lemma als_more_users_than_items_witness :
  let run := als_result Rational.pinv (Arr 0) (Arr 1) (Arr 1) 1 store_3x2 in
  fst run = Raise IndexError /\ printed store_3x2 (snd run) = [].
Proof.
  apply (@als_more_users_than_items Q _ Rational.pinv pinv_is_shaped
           store_3x2 0 (Arr 1) (Arr 1) 1 ratings_3x2 items_2x1 3 2 1).
  - reflexivity.
  - reflexivity.
  - shape_of.
  - apply pinv_is_shaped; [shape_of | lia].
  - lia.
  - lia.
Defined.

Lemma als_unsolved_item_index_error_witness :
  let run := als_result Rational.pinv (Arr 0) (Arr 1) (Arr 2) 3 store_2x5 in
  fst run = Raise IndexError /\ printed store_2x5 (snd run) = [].
Proof.
  apply (@als_unsolved_item_index_error Q _ Rational.pinv pinv_is_shaped
           store_2x5 0 (Arr 1) (Arr 2) 3 ratings_2x5 items_5x10 2 5 10 0 4).
  - reflexivity.
  - reflexivity.
  - shape_of.
  - apply pinv_is_shaped; [shape_of | lia].
  - lia.
  - lia.
  - vm_compute. auto.
  - lia.
  - lia.
Defined.

Lemma als_fewer_users_than_items_witness :
  let run := als_result Rational.pinv (Arr 0) (Arr 1) (Arr 2) 2 store_2x3 in
  length (printed store_2x3 (snd run)) = 1 /\
  (2 = 1 -> exists G, fst run = Ok G /\ shape G 2 2) /\
  (1 < 2 -> fst run = Raise ValueError).
Proof.
  apply (@als_fewer_users_than_items Q _ Rational.pinv pinv_is_shaped
           store_2x3 0 (Arr 1) (Arr 2) 2 ratings_2x3 items_3x1 2 3 1).
  - reflexivity.
  - reflexivity.
  - shape_of.
  - apply pinv_is_shaped; [shape_of | lia].
  - lia.
  - lia.
  - lia.
  - intros i j Hij. vm_compute in Hij.
    destruct Hij as [H|[H|[]]]; injection H as <- <-; lia.
  - lia.
Defined.

Lemma als_prints_one_error_per_pass_witness :
  let run := als_result Rational.pinv (Arr 0) (Arr 1) (Arr 2) 2 store_2x2 in
  length (printed store_2x2 (snd run)) <= 2 /\
  (forall G, fst run = Ok G ->
     0 < 2 /\ length (printed store_2x2 (snd run)) = 2) /\
  (2 = 0 -> run = (Raise UnboundLocalError, store_2x2)).
Proof.
  apply (@als_prints_one_error_per_pass Q _ Rational.pinv store_2x2 0
           (Arr 1) (Arr 2) 2 ratings_2x2 items_2x1');
    reflexivity.
Defined.

Lemma als_zero_ratings_witness :
  let run := als_result Rational.pinv (Arr 0) (Arr 1) (Arr 1) 2 store_zeros in
  fst run = Ok (zeros 2 2) /\ printed store_zeros (snd run) = repeat s0 2.
Proof.
  apply (@als_zero_ratings Q _ Rational.pinv pinv_is_shaped qmul_zero
           eq_refl eq_refl store_zeros 0 (Arr 1) (Arr 1) 2 items_2x1 2 1).
  - reflexivity.
  - reflexivity.
  - apply pinv_is_shaped; [shape_of | lia].
  - lia.
  - lia.
  - lia.
Defined.

Lemma als_returns_a_new_array_witness :
  exists l, Arr 6 = Arr l /\ length (heap store_2x2) <= l /\
            contents store_2x2 (Arr 6) = None /\
            contents store_2x2 (T (Arr 6)) = None.
Proof.
  apply (@als_returns_a_new_array Q _ Rational.pinv store_2x2 (Arr 0)
           (Arr 1) (Arr 2) 1 (Arr 6)).
  vm_compute. reflexivity.
Defined.

Lemma masked_error_zero_iff_fit_witness :
  ((2 == 0)%Q <->
   forall i j, In (i, j) (observed ratings_2x3) ->
     exists g, getitem2 guess_2x3 i j = Ok g /\
               (g == nth j (nth i ratings_2x3 []) 0)%Q) /\
  (~ (2 == 0)%Q -> (0 < 2)%Q).
Proof.
  apply (@masked_error_zero_iff_fit ratings_2x3 guess_2x3 2%Q).
  vm_compute. reflexivity.
Defined.

Lemma als_prints_no_negative_error_witness :
  Forall (fun e => (0 <= e)%Q)
    (printed store_2x2
       (snd (als_result Rational.pinv (Arr 0) (Arr 1) (Arr 2) 2 store_2x2))).
Proof.
  apply (@als_prints_no_negative_error Rational.pinv store_2x2 0 (Arr 1)
           (Arr 2) 2 ratings_2x2 items_2x1');
    reflexivity.
Defined.

Lemma first_guess_total_error_witness :
  first_guess ratings_2x3 users_2x1 items_3x1
  = Ok (products users_2x1 items_3x1, true,
        total_sq 2 3 ratings_2x3 (products users_2x1 items_3x1)) /\
  shape (products users_2x1 items_3x1) 2 3.
Proof.
  apply (@first_guess_total_error Q _ ratings_2x3 users_2x1 items_3x1 2 3 1);
    try lia; shape_of.
Defined.

Lemma total_error_is_masked_error_when_all_observed_witness :
  rmap (fun diff => np_sum (map (map sq) diff))
    (subtract ratings_full_2x2 guess_full_2x2)
  = masked_error ratings_full_2x2 guess_full_2x2.
Proof.
  apply (@total_error_is_masked_error_when_all_observed Q _ ratings_full_2x2
           guess_full_2x2 2 2).
  - shape_of.
  - shape_of.
  - lia.
  - intros i j Hi Hj.
    destruct i as [|[|i]]; [| |lia]; (destruct j as [|[|j]]; [| |lia]);
      reflexivity.
Defined.

Lemma two_user_example_is_half_a_pass_witness :
  exists prefs guess err,
    two_user_example Rational.pinv [0; 1; 0; 0; 4]%Q [0; 0; 0; 5; 0]%Q
      items_5x10
    = Ok (prefs, guess, err) /\
    user_sweep Rational.pinv [[0; 1; 0; 0; 4]; [0; 0; 0; 5; 0]]%Q items_5x10
    = Ok prefs /\
    guess = products prefs items_5x10 /\ shape guess 2 5 /\
    masked_error [[0; 1; 0; 0; 4]; [0; 0; 0; 5; 0]]%Q guess = Ok err /\
    err = masked_total [[0; 1; 0; 0; 4]; [0; 0; 0; 5; 0]]%Q guess.
Proof.
  apply (@two_user_example_is_half_a_pass Q _ Rational.pinv pinv_is_shaped
           [0; 1; 0; 0; 4]%Q [0; 0; 0; 5; 0]%Q items_5x10 5 10).
  - reflexivity.
  - reflexivity.
  - shape_of.
  - lia.
  - lia.
Defined.

Lemma total_error_exceeds_masked_error_witness :
  exists total masked : Q,
    rmap (fun diff => np_sum (map (map sq) diff))
      (subtract ratings_2x3 guess_2x3)
    = Ok total /\
    masked_error ratings_2x3 guess_2x3 = Ok masked /\
    (total == masked + unobserved_sq 2 3 ratings_2x3 guess_2x3)%Q /\
    (masked <= total)%Q.
Proof.
  apply (@total_error_exceeds_masked_error ratings_2x3 guess_2x3 2 3).
  - shape_of.
  - shape_of.
  - lia.
Defined.

Lemma ratings2_every_user_rates_witness :
  Forall
    (fun row =>
       Forall (fun x => (0 <= x <= 6)%Z) row /\
       exists x, In x row /\ (1 <= x)%Z)
    lcg_ratings2.
Proof.
  apply (@ratings2_every_user_rates Z lcg_seed lcg_gauss lcg_uniform
           lcg_uniform_1_6 lcg_ratings2).
  vm_compute. reflexivity.
Defined.

Lemma ratings2_is_built_witness :
  exists rows,
    fst (cell_38 lcg_seed lcg_gauss lcg_uniform) = Ok rows /\
    @shape Z rows 100 100.
Proof.
  apply (@ratings2_is_built Z lcg_seed lcg_gauss lcg_uniform
           lcg_uniform_0_10).
Defined.

Lemma notebook_als_call_returns_witness :
  exists G,
    fst (cells_38_to_46 lcg_seed lcg_gauss lcg_uniform Rational.pinv) = Ok G /\
    shape G 5 100 /\
    length (snd (cells_38_to_46 lcg_seed lcg_gauss lcg_uniform Rational.pinv))
    = 10 /\
    Forall (fun e => (0 <= e)%Q)
      (snd (cells_38_to_46 lcg_seed lcg_gauss lcg_uniform Rational.pinv)).
Proof.
  apply (@notebook_als_call_returns Z lcg_seed lcg_gauss lcg_uniform
           lcg_uniform_0_10 Rational.pinv pinv_is_shaped).
Defined.

Lemma als_square_returns_witness :
  exists G,
    fst (als_result Rational.pinv (Arr 0) (Arr 1) (Arr 2) 2 store_2x2) = Ok G /\
    shape G 2 2 /\
    length
      (printed store_2x2
         (snd (als_result Rational.pinv (Arr 0) (Arr 1) (Arr 2) 2 store_2x2)))
    = 2.
Proof.
  apply (@als_square_returns Q _ Rational.pinv pinv_is_shaped store_2x2 0
           (Arr 1) (Arr 2) 2 ratings_2x2 items_2x1' 2 1).
  - reflexivity.
  - reflexivity.
  - shape_of.
  - lia.
  - lia.
  - apply pinv_is_shaped; [shape_of | lia].
  - lia.
Defined.
